(** * webscrape.py: a depth- and time-bounded breadth-first scraper

    A shallow embedding of [src/webscrape.py] and the properties its
    specification states about it.

    The program has one function, [scrape_articles], with a nested helper
    [write_with_line_breaks], and a command-line entry point.  Everything the
    program obtains from outside (the web, the clock, the file system and the
    library functions [urljoin], [str.lower], [int] and [float]) is gathered
    in a record [env]; the program itself is written in a small state-and-exception
    monad, statement by statement. *)

From Stdlib Require Import ZArith QArith String Ascii List DecimalString Lia.
From stdpp Require Import gmap strings list sorting.
Import ListNotations.

Local Open Scope string_scope.
Local Open Scope list_scope.
Local Open Scope Z_scope.

(** ** Python values *)

(** The one-character string ["\n"]. *)
Definition nl : string := String "010"%char EmptyString.

(** [str.lower()] on ASCII text: the [str_lower] of the examples. *)
Definition lower_char (c : ascii) : ascii :=
  let n := nat_of_ascii c in
  if ((65 <=? n)%nat && (n <=? 90)%nat)%bool then ascii_of_nat (n + 32) else c.

Fixpoint lower_ascii (s : string) : string :=
  match s with
  | EmptyString => EmptyString
  | String c t => String (lower_char c) (lower_ascii t)
  end.

(** [needle in hay] for two strings: substring test. *)
Fixpoint str_in (needle hay : string) : bool :=
  if String.prefix needle hay then true
  else match hay with
       | EmptyString => false
       | String _ t => str_in needle t
       end.

(** [text[start:end]] for [0 <= start <= end <= len(text)]. *)
Definition slice (text : string) (start end_ : nat) : string :=
  String.substring start (end_ - start) text.

(** [text[i] != ' '] for an index inside the text. *)
Definition not_space_at (text : string) (i : nat) : bool :=
  match String.get i text with
  | Some c => negb (Ascii.eqb c " "%char)
  | None => true
  end.

(** [elapsed_time > run_time] (line 129), the times being rationals. *)
Definition expired (elapsed_time run_time : Q) : bool :=
  negb (Qle_bool elapsed_time run_time).

(** An integer inside an f-string. *)
Definition fmt_int (z : Z) : string := NilZero.string_of_int (Z.to_int z).

(** Exceptions, all of them instances of [Exception]; the handlers of the
    program tell [IOError] from the rest and print [str(e)]. *)
Inductive exn : Type :=
| IOError (msg : string)
| OtherError (msg : string).

Definition str_exn (e : exn) : string :=
  match e with IOError m => m | OtherError m => m end.

Definition is_IOError (e : exn) : bool :=
  match e with IOError _ => true | OtherError _ => false end.

(** ** The environment *)

(** What [BeautifulSoup(response.text, "html.parser")] gives the program:
    [soup.title] (with the text of [soup.title.string]), [soup.text] and,
    for each [<a>] element in document order, [link.get("href")]. *)
Record soup : Type := {
  title : option string;
  text : string;
  anchors : list (option string)
}.

Record env : Type := {
  (** [requests.get(u)] followed by the parse: a page or an exception *)
  requests_get : string -> exn + soup;
  (** [urllib.parse.urljoin(base, href)]: the joined URL, or the
      [ValueError] it raises for some hrefs *)
  urljoin : string -> string -> exn + string;
  (** [s.lower()] *)
  str_lower : string -> string;
  (** the reading of the [k]-th call of [time.time()], in seconds *)
  time_time : nat -> Q;
  (** [open(name, "w")]: [None] when the file opens *)
  open_w : string -> option exn;
  (** whether the [k]-th call of [out_file.write] raises *)
  write_error : nat -> option exn;
  (** whether closing the file, at the end of the [with] block, raises *)
  close_error : option exn;
  (** [int(s)] and [float(s)]: [None] stands for [ValueError] *)
  py_int : string -> option Z;
  py_float : string -> option Q
}.

(** ** State, events and the monad *)

(** The output file: the strings written so far, one per successful call of
    [write], and the number of calls made. *)
Record file : Type := {
  chunks : list string;
  write_calls : nat
}.

Definition file_text (f : file) : string := String.concat EmptyString (chunks f).

Definition empty_file : file := {| chunks := []; write_calls := 0 |}.

(** What an observer of a session can see, in order. *)
Inductive event : Type :=
| Dequeue (u : string) (d : Z)     (* urls_to_visit.pop(0) *)
| Fetch (u : string) (d : Z)       (* requests.get(current_url) is called *)
| Enqueue (u : string) (d : Z)     (* urls_to_visit.append(...) *)
| Print (line : string)            (* print(...) *)
| DeadlineCheck (elapsed : Q).     (* time.time() - start_time *)

Record state : Type := {
  visited_urls : gset string;
  urls_to_visit : list (string * Z);
  out_file : file;
  clock_reads : nat;
  trace : list event
}.

Definition initial_state : state :=
  {| visited_urls := ∅; urls_to_visit := []; out_file := empty_file;
     clock_reads := 0; trace := [] |}.

Definition set_visited (v : gset string) (s : state) : state :=
  {| visited_urls := v; urls_to_visit := urls_to_visit s;
     out_file := out_file s; clock_reads := clock_reads s; trace := trace s |}.

Definition set_frontier (q : list (string * Z)) (s : state) : state :=
  {| visited_urls := visited_urls s; urls_to_visit := q;
     out_file := out_file s; clock_reads := clock_reads s; trace := trace s |}.

Definition set_file (f : file) (s : state) : state :=
  {| visited_urls := visited_urls s; urls_to_visit := urls_to_visit s;
     out_file := f; clock_reads := clock_reads s; trace := trace s |}.

Definition set_clock_reads (n : nat) (s : state) : state :=
  {| visited_urls := visited_urls s; urls_to_visit := urls_to_visit s;
     out_file := out_file s; clock_reads := n; trace := trace s |}.

Definition log (e : event) (s : state) : state :=
  {| visited_urls := visited_urls s; urls_to_visit := urls_to_visit s;
     out_file := out_file s; clock_reads := clock_reads s;
     trace := trace s ++ [e] |}.

(** How a statement ends: normally, by an exception, or (in the model only)
    because the number of loop iterations allowed to it is used up. *)
Inductive outcome (A : Type) : Type :=
| Ok (a : A)
| Raise (e : exn)
| OutOfFuel.
Arguments Ok {A} a.
Arguments Raise {A} e.
Arguments OutOfFuel {A}.

(** A statement over a store [S]: the store is kept when it raises. *)
Definition M (S A : Type) : Type := S -> outcome A * S.

Definition ret {S A} (a : A) : M S A := fun s => (Ok a, s).

Definition bind {S A B} (m : M S A) (k : A -> M S B) : M S B :=
  fun s =>
    match m s with
    | (Ok a, s') => k a s'
    | (Raise e, s') => (Raise e, s')
    | (OutOfFuel, s') => (OutOfFuel, s')
    end.

Definition raise {S A} (e : exn) : M S A := fun s => (Raise e, s).

Definition out_of_fuel {S A} : M S A := fun s => (OutOfFuel, s).

(** [try: body / except Exception as e: handler e] *)
Definition try_except {S A} (body : M S A) (handler : exn -> M S A) : M S A :=
  fun s =>
    match body s with
    | (Raise e, s') => handler e s'
    | r => r
    end.

Definition modify {S} (f : S -> S) : M S unit := fun s => (Ok tt, f s).

Definition gets {S A} (f : S -> A) : M S A := fun s => (Ok (f s), s).

Declare Scope py_scope.
Delimit Scope py_scope with py.
Notation "x <- m ;; k" := (bind m (fun x => k))
  (at level 100, m at next level, right associativity) : py_scope.
Notation "m ;; k" := (bind m (fun _ => k))
  (at level 100, right associativity) : py_scope.
Local Open Scope py_scope.

(** ** The program *)

Section Program.

Variable E : env.

(** [file.write(s)] *)
Definition file_write (s : string) : M file unit :=
  fun f =>
    match write_error E (write_calls f) with
    | Some e => (Raise e, {| chunks := chunks f; write_calls := S (write_calls f) |})
    | None => (Ok tt, {| chunks := chunks f ++ [s]; write_calls := S (write_calls f) |})
    end.

(** *** write_with_line_breaks (lines 64-93)

    [max_line_length] is a natural number: the one call of the function
    passes the literal 80. *)

(** Lines 86-87, [while end > start and text[end] != ' ': end -= 1], with
    [end = start + k]: the value of [end] when the loop stops. *)
Fixpoint scan_back (text : string) (start k : nat) : nat :=
  match k with
  | O => start
  | S k' => if not_space_at text (start + k) then scan_back text start k'
            else (start + k)%nat
  end.

(** Lines 84-91: the value of [end] at the [write] of line 92. *)
Definition line_end (text : string) (max_line_length start : nat) : nat :=
  let end_ := (start + max_line_length)%nat in
  if (end_ <? String.length text)%nat then
    let end_ := scan_back text start max_line_length in
    if (end_ =? start)%nat then (start + max_line_length)%nat else end_
  else String.length text.

(** Lines 83-93: the loop, entered with the current value of [start].  Every
    iteration moves [start] forward, so [len(text)] iterations are enough
    (lemma [wrap_loop_enough_fuel]). *)
Fixpoint wrap_loop (fuel : nat) (text : string) (max_line_length start : nat)
  : M file unit :=
  if (start <? String.length text)%nat then
    match fuel with
    | O => out_of_fuel
    | S fuel' =>
        let end_ := line_end text max_line_length start in
        file_write (slice text start end_ +:+ nl) ;;
        wrap_loop fuel' text max_line_length (end_ + 1)
    end
  else ret tt.

Definition write_with_line_breaks (text : string) (max_line_length : nat)
  : M file unit :=
  wrap_loop (String.length text) text max_line_length 0.

(** *** scrape_articles (lines 95-139) *)

(** A statement on the output file, run inside a session. *)
Definition on_file {A} (m : M file A) : M state A :=
  fun s => let (r, f) := m (out_file s) in (r, set_file f s).

Definition print (line : string) : M state unit := modify (log (Print line)).

(** [time.time()] *)
Definition now : M state Q :=
  fun s => (Ok (time_time E (clock_reads s)),
            set_clock_reads (S (clock_reads s)) s).

(** [if href:] -- neither [None] nor the empty string. *)
Definition truthy (href : option string) : option string :=
  match href with
  | Some h => if String.eqb h EmptyString then None else Some h
  | None => None
  end.

(** [urls_to_visit.append(entry)] *)
Definition append_url (entry : string * Z) : M state unit :=
  modify (fun s =>
    log (Enqueue (fst entry) (snd entry))
        (set_frontier (urls_to_visit s ++ [entry]) s)).

(** Lines 117-120: [for link in soup.find_all("a"): ...]. *)
Fixpoint enqueue_links (url : string) (links : list (option string))
    (current_depth : Z) : M state unit :=
  match links with
  | [] => ret tt
  | link :: rest =>
      match truthy link with
      | Some href =>
          match urljoin E url href with
          | inl e => raise e
          | inr joined => append_url (joined, current_depth + 1)
          end
      | None => ret tt
      end ;;
      enqueue_links url rest current_depth
  end.

(** Lines 122-126: the search and, on a match, the report and the write. *)
Definition report_match (search_string : string) (page : soup) : M state unit :=
  if str_in (str_lower E search_string) (str_lower E (text page)) then
    let title_ := match title page with
                  | Some t => t
                  | None => "No title found"
                  end in
    print ("Found article: " +:+ title_) ;;
    on_file (write_with_line_breaks (text page) 80)
  else ret tt.

(** Lines 114-126: fetch, parse, enqueue the links, report a match. *)
Definition process_page (url search_string current_url : string)
    (current_depth : Z) : M state unit :=
  modify (log (Fetch current_url current_depth)) ;;
  match requests_get E current_url with
  | inl e => raise e
  | inr page =>
      enqueue_links url (anchors page) current_depth ;;
      report_match search_string page
  end.

(** How an iteration of [while urls_to_visit] leaves the loop body. *)
Inductive flow : Type := Continue | Break.

(** Lines 128-131. *)
Definition deadline_check (start_time run_time : Q) : M state flow :=
  t <- now ;;
  let elapsed_time := (t - start_time)%Q in
  modify (log (DeadlineCheck elapsed_time)) ;;
  if expired elapsed_time run_time then
    print "Scrape has timed out" ;; ret Break
  else ret Continue.

(** Line 106: [urls_to_visit.pop(0)]. *)
Definition pop0 : M state (string * Z) :=
  fun s =>
    match urls_to_visit s with
    | [] => (Raise (OtherError "pop from empty list"), s)
    | (u, d) :: rest => (Ok (u, d), log (Dequeue u d) (set_frontier rest s))
    end.

(** Lines 106-134: the body of the loop. *)
Definition iteration (url : string) (depth : Z) (search_string : string)
    (start_time run_time : Q) : M state flow :=
  entry <- pop0 ;;
  let (current_url, current_depth) := entry : string * Z in
  visited <- gets visited_urls ;;
  if (bool_decide (current_url ∈ visited) || (depth <? current_depth))%bool
  then ret Continue
  else
    modify (fun s => set_visited (visited_urls s ∪ {[current_url]}) s) ;;
    try_except
      (process_page url search_string current_url current_depth ;;
       deadline_check start_time run_time)
      (fun e =>
         print ("Error processing URL " +:+ current_url +:+ ": " +:+ str_exn e) ;;
         ret Continue).

(** Lines 105-134: [while urls_to_visit: ...]. *)
Fixpoint while_urls_to_visit (fuel : nat) (url : string) (depth : Z)
    (search_string : string) (start_time run_time : Q) : M state unit :=
  fun s =>
    match urls_to_visit s with
    | [] => (Ok tt, s)
    | _ :: _ =>
        match fuel with
        | O => (OutOfFuel, s)
        | S fuel' =>
            (c <- iteration url depth search_string start_time run_time ;;
             match c with
             | Break => ret tt
             | Continue =>
                 while_urls_to_visit fuel' url depth search_string
                                     start_time run_time
             end) s
        end
    end.

(** Lines 101-103: the header. *)
Definition write_header (url : string) (depth : Z) (search_string : string)
  : M state unit :=
  on_file (file_write ("Search Term: " +:+ search_string +:+ nl)) ;;
  on_file (file_write ("URL: " +:+ url +:+ nl)) ;;
  on_file (file_write ("Search Depth: " +:+ fmt_int depth +:+ nl)).

(** Line 100, [with open(output_file, "w", ...) as out_file: body].  When
    the file opens, it is closed as the body ends, normally or by an
    exception; an exception of the closing replaces that of the body. *)
Definition with_open (output_file : string) (body : M state unit)
  : M state unit :=
  match open_w E output_file with
  | Some e => raise e
  | None =>
      modify (set_file empty_file) ;;
      fun s =>
        match body s with
        | (Ok _, s') =>
            match close_error E with
            | Some e' => (Raise e', s')
            | None => (Ok tt, s')
            end
        | (Raise e, s') =>
            match close_error E with
            | Some e' => (Raise e', s')
            | None => (Raise e, s')
            end
        | (OutOfFuel, s') => (OutOfFuel, s')
        end
  end.

(** Lines 136-139: the two handlers of the outer [try]. *)
Definition outer_handler (output_file : string) (e : exn) : M state unit :=
  if is_IOError e then
    print ("Error opening or writing to output file " +:+ output_file
           +:+ ": " +:+ str_exn e)
  else print ("Unexpected error: " +:+ str_exn e).

Definition scrape_articles (fuel : nat) (url : string) (depth : Z)
    (search_string output_file : string) (run_time : Q) : M state unit :=
  start_time <- now ;;
  modify (set_visited ∅) ;;
  modify (set_frontier [(url, 0)]) ;;
  try_except
    (with_open output_file
       (write_header url depth search_string ;;
        while_urls_to_visit fuel url depth search_string start_time run_time))
    (outer_handler output_file).

(** *** The entry point (lines 143-158)

    The result is the exit status of the process; an exception that leaves
    [main] ends the process with a traceback and status 1
    ([exit_status]). *)
Definition main (fuel : nat) (argv : list string) : M state Z :=
  match argv with
  | [_; url_arg; depth_s; search_string_arg; output_file_arg; run_time_s] =>
      match py_int E depth_s with
      | None => raise (OtherError "invalid literal for int()")
      | Some depth_arg =>
          match py_float E run_time_s with
          | None => raise (OtherError "could not convert string to float")
          | Some run_time_arg =>
              try_except
                (scrape_articles fuel url_arg depth_arg search_string_arg
                                 output_file_arg run_time_arg ;;
                 ret 0)
                (fun e =>
                   print ("An error occurred while running the scraper: "
                          +:+ str_exn e) ;;
                   ret 1)
          end
      end
  | _ =>
      print "Usage: python scraper.py URL DEPTH SEARCH_STRING OUTPUT_FILE RUN_TIME" ;;
      ret 1
  end.

End Program.

Definition exit_status (r : outcome Z) : option Z :=
  match r with
  | Ok z => Some z
  | Raise _ => Some 1
  | OutOfFuel => None
  end.

(** ** Reading a trace *)

Definition fetch_of (e : event) : option (string * Z) :=
  match e with Fetch u d => Some (u, d) | _ => None end.

Definition dequeue_of (e : event) : option (string * Z) :=
  match e with Dequeue u d => Some (u, d) | _ => None end.

Definition enqueue_of (e : event) : option (string * Z) :=
  match e with Enqueue u d => Some (u, d) | _ => None end.

Definition print_of (e : event) : option string :=
  match e with Print l => Some l | _ => None end.

Definition check_of (e : event) : option Q :=
  match e with DeadlineCheck t => Some t | _ => None end.

(** The entries the Fetcher was called for, in order, and their URLs. *)
Definition fetched_entries (tr : list event) : list (string * Z) := omap fetch_of tr.
Definition fetched (tr : list event) : list string := map fst (fetched_entries tr).

(** The entries taken from the queue and those appended to it, in order. *)
Definition dequeued (tr : list event) : list (string * Z) := omap dequeue_of tr.
Definition enqueued (tr : list event) : list (string * Z) := omap enqueue_of tr.

(** The lines on the console and the number of deadline checks. *)
Definition console (tr : list event) : list string := omap print_of tr.
Definition deadline_checks (tr : list event) : nat := length (omap check_of tr).

(** Events of the console and the clock only. *)
Definition quiet (tr : list event) : Prop :=
  fetched_entries tr = [] /\ dequeued tr = [] /\ enqueued tr = [].

(** The state of a session started in a fresh process, and how it ended. *)
Definition session (E : env) (fuel : nat) (url : string) (depth : Z)
    (search_string output_file : string) (run_time : Q) : state :=
  snd (scrape_articles E fuel url depth search_string output_file run_time
                       initial_state).

Definition session_outcome (E : env) (fuel : nat) (url : string) (depth : Z)
    (search_string output_file : string) (run_time : Q) : outcome unit :=
  fst (scrape_articles E fuel url depth search_string output_file run_time
                       initial_state).

(** The hrefs joined to [url] one after another: the entries obtained up to
    the first href for which [urljoin] raises, and that exception. *)
Fixpoint join_all (E : env) (url : string) (hrefs : list string)
    (current_depth : Z) : list (string * Z) * option exn :=
  match hrefs with
  | [] => ([], None)
  | href :: rest =>
      match urljoin E url href with
      | inl e => ([], Some e)
      | inr joined =>
          let (entries, error) := join_all E url rest current_depth in
          ((joined, current_depth + 1) :: entries, error)
      end
  end.

(** The entries lines 117-120 append for the anchors of a page, and the
    exception that ends the [for] loop, if any. *)
Definition links_of (E : env) (url : string) (links : list (option string))
    (current_depth : Z) : list (string * Z) :=
  fst (join_all E url (omap truthy links) current_depth).

Definition links_error (E : env) (url : string) (links : list (option string))
    (current_depth : Z) : option exn :=
  snd (join_all E url (omap truthy links) current_depth).

(** The entries an iteration appends when it takes the entry [(u, d)]: the
    links of the page, or nothing when the fetch fails. *)
Definition discovered (E : env) (url u : string) (d : Z) : list (string * Z) :=
  match requests_get E u with
  | inl _ => []
  | inr pg => links_of E url (anchors pg) d
  end.

Definition add_entries (new : list (string * Z)) (s : state) : state :=
  {| visited_urls := visited_urls s; urls_to_visit := urls_to_visit s ++ new;
     out_file := out_file s; clock_reads := clock_reads s;
     trace := trace s ++ map (fun e => Enqueue (fst e) (snd e)) new |}.

(** ** States and invariants of a session *)

(** The state after lines 106-111 for an entry that is not skipped. *)
Definition taken (u : string) (d : Z) (rest : list (string * Z)) (s : state)
  : state :=
  set_visited (visited_urls s ∪ {[u]}) (log (Dequeue u d) (set_frontier rest s)).

(** The state at line 99, in a fresh process. *)
Definition start_state (url : string) : state :=
  set_frontier [(url, 0)] (set_visited ∅ (set_clock_reads 1 initial_state)).

(** No URL is fetched twice, a fetched URL is marked visited, and no entry
    deeper than [depth] is fetched. *)
Definition fetch_inv (depth : Z) (s : state) : Prop :=
  NoDup (fetched (trace s)) /\
  (forall u, u ∈ fetched (trace s) -> u ∈ visited_urls s) /\
  Forall (fun e : string * Z => snd e <= depth) (fetched_entries (trace s)).

(** The queue is first-in first-out: what was put in, in that order, is what
    was taken out followed by what is waiting; the fetches follow the order
    of the dequeues; depths never decrease along the queue, and the waiting
    entries are at most one level below its head. *)
Definition queue_inv (url : string) (s : state) : Prop :=
  (url, 0) :: enqueued (trace s) = dequeued (trace s) ++ urls_to_visit s /\
  fetched_entries (trace s) `sublist_of` dequeued (trace s) /\
  StronglySorted Z.le (map snd (dequeued (trace s) ++ urls_to_visit s)) /\
  (forall e h, e ∈ urls_to_visit s -> head (urls_to_visit s) = Some h ->
               snd e <= snd h + 1).

(** A bound on the iterations an entry can cause: one for the entry itself
    and, while [levels] levels are left above the depth limit, those of the
    entries its page adds to the queue. *)
Fixpoint tree_size (E : env) (url : string) (levels : nat) (u : string) (d : Z)
  : nat :=
  match levels with
  | O => 1
  | S levels' =>
      S (list_sum (map (fun e => tree_size E url levels' (fst e) (snd e))
                       (discovered E url u d)))
  end.

Definition entry_cost (E : env) (url : string) (depth : Z) (e : string * Z)
  : nat :=
  tree_size E url (Z.to_nat (depth + 1 - snd e)) (fst e) (snd e).

Definition queue_cost (E : env) (url : string) (depth : Z)
    (q : list (string * Z)) : nat :=
  list_sum (map (entry_cost E url depth) q).

(** Iterations that are enough for a whole session. *)
Definition enough_fuel (E : env) (url : string) (depth : Z) : nat :=
  queue_cost E url depth [(url, 0)].

(** What lines 136-139 print for an exception. *)
Definition outer_message (output_file : string) (e : exn) : string :=
  if is_IOError e
  then "Error opening or writing to output file " +:+ output_file
       +:+ ": " +:+ str_exn e
  else "Unexpected error: " +:+ str_exn e.

(** The first of the three writes of the header that raises, if any. *)
Definition header_write_error (E : env) : option exn :=
  match write_error E 0 with
  | Some e => Some e
  | None =>
      match write_error E 1 with
      | Some e => Some e
      | None => write_error E 2
      end
  end.

(** The exception, if any, with which lines 100-103 end the session: that
    of [open], or that of the first header write that raises, replaced by
    that of the closing of the file when the closing raises too. *)
Definition header_error (E : env) (output_file : string) : option exn :=
  match open_w E output_file with
  | Some e => Some e
  | None =>
      match header_write_error E with
      | Some e => Some (match close_error E with Some e' => e' | None => e end)
      | None => None
      end
  end.

(** What the closing of the file adds to the console when it raises. *)
Definition closing (E : env) (output_file : string) (s : state) : state :=
  match close_error E with
  | Some e => log (Print (outer_message output_file e)) s
  | None => s
  end.

(** The header block. *)
Definition header_lines (url : string) (depth : Z) (search_string : string)
  : list string :=
  ["Search Term: " +:+ search_string +:+ nl;
   "URL: " +:+ url +:+ nl;
   "Search Depth: " +:+ fmt_int depth +:+ nl].



(** ** Definitions for the further properties *)

(** The lines the loop of lines 83-93 cuts, from [start] on. *)
Fixpoint wrapped_lines (fuel : nat) (text : string) (max_line_length start : nat)
  : list string :=
  if (start <? String.length text)%nat then
    match fuel with
    | O => []
    | S fuel' =>
        let end_ := line_end text max_line_length start in
        slice text start end_
          :: wrapped_lines fuel' text max_line_length (end_ + 1)
    end
  else [].

(** The arguments of the calls of [write] the wrapper makes for a text. *)
Definition lines_written (text : string) (max_line_length : nat) : list string :=
  map (fun line => line +:+ nl)
      (wrapped_lines (String.length text) text max_line_length 0).

(** The lines with, after each of them, the character of the text that
    follows it (none after a line that ends the text). *)
Fixpoint put_back (text : string) (start : nat) (lines : list string) : string :=
  match lines with
  | [] => EmptyString
  | line :: rest =>
      let end_ := (start + String.length line)%nat in
      line +:+ String.substring end_ 1 text +:+ put_back text (end_ + 1) rest
  end.

(** A chunk of the file that is a line of at most [width] characters and
    its newline. *)
Definition wrapped_line (width : nat) (chunk : string) : Prop :=
  exists line, chunk = line +:+ nl /\ (String.length line <= width)%nat.

(** The visited set is the set of the URLs fetched so far. *)
Definition visited_inv (s : state) : Prop :=
  visited_urls s = list_to_set (fetched (trace s)).

(** The waiting entries have a depth of at least 0, the appended ones a depth
    from 1 to [depth + 1]. *)
Definition depth_inv (depth : Z) (s : state) : Prop :=
  Forall (fun e : string * Z => 0 <= snd e) (urls_to_visit s) /\
  Forall (fun e : string * Z => 1 <= snd e <= depth + 1) (enqueued (trace s)).


(** The line of line 130. *)
Definition timeout_line : string := "Scrape has timed out".

(** No deadline check of the trace found the budget exceeded, and the
    timeout line was not printed. *)
Definition within_budget (run_time : Q) (tr : list event) : Prop :=
  Forall (fun t => expired t run_time = false) (omap check_of tr) /\
  timeout_line ∉ console tr.

(** The trace ends with the first check that found the budget exceeded and
    the timeout line. *)
Definition stopped_by_timeout (run_time : Q) (tr : list event) : Prop :=
  exists before t,
    tr = before ++ [DeadlineCheck t; Print timeout_line] /\
    expired t run_time = true /\
    within_budget run_time before.

(** Events without a deadline check and without the timeout line. *)
Definition silent (tr : list event) : Prop :=
  omap check_of tr = [] /\ timeout_line ∉ console tr.

(** ** The environments of the examples *)

(** [urljoin] on the hrefs of the examples: an absolute href (one with a
    scheme) is the result; a relative path without dot segments replaces the
    last segment of the path of the base. *)
Fixpoint up_to_last_slash (s : string) : string :=
  match s with
  | EmptyString => EmptyString
  | String c t =>
      if str_in "/" t then String c (up_to_last_slash t)
      else if Ascii.eqb c "/"%char then "/" else EmptyString
  end.

Definition urljoin_paths (base href : string) : string :=
  if str_in "://" href then href else up_to_last_slash base +:+ href.

(** The hrefs of the examples for which [urljoin] raises [ValueError]: those
    with an opening bracket and no closing one, like [http://[::1]. *)
Definition invalid_ipv6 (href : string) : bool :=
  (str_in "[" href && negb (str_in "]" href))%bool.

(** A finite web: the listed pages exist, every other request fails. *)
Fixpoint lookup_page (pages : list (string * soup)) (u : string) : exn + soup :=
  match pages with
  | [] => inl (IOError "connection refused")
  | (k, p) :: rest => if String.eqb k u then inr p else lookup_page rest u
  end.

Definition decimal (s : string) : option Z :=
  option_map Z.of_int (NilZero.int_of_string s).

(** The clock advances one second per reading. *)
Definition example_env (pages : list (string * soup))
    (open_error : option exn) (write_errors : nat -> option exn) : env :=
  {| requests_get := lookup_page pages;
     urljoin := fun base href =>
                  if invalid_ipv6 href then inl (OtherError "Invalid IPv6 URL")
                  else inr (urljoin_paths base href);
     str_lower := lower_ascii;
     time_time := fun k => inject_Z (Z.of_nat k);
     open_w := fun _ => open_error;
     write_error := write_errors;
     close_error := None;
     py_int := decimal;
     py_float := fun s => option_map inject_Z (decimal s) |}.

Definition no_error : nat -> option exn := fun _ => None.

(** The same environment, on a device where closing the file raises [e]. *)
Definition with_close_error (e : exn) (E : env) : env :=
  {| requests_get := requests_get E;
     urljoin := urljoin E;
     str_lower := str_lower E;
     time_time := time_time E;
     open_w := open_w E;
     write_error := write_error E;
     close_error := Some e;
     py_int := py_int E;
     py_float := py_float E |}.

Definition page (title_ : option string) (text_ : string)
    (hrefs : list string) : soup :=
  {| title := title_; text := text_; anchors := map Some hrefs |}.

(** [n] copies of a character. *)
Fixpoint copies (n : nat) (c : ascii) : string :=
  match n with
  | O => EmptyString
  | S n' => String c (copies n' c)
  end.

(** The [k]-th write fails, the others succeed. *)
Definition fails_at (k : nat) (e : exn) : nat -> option exn :=
  fun i => if Nat.eqb i k then Some e else None.

(** Every write from the [k]-th on fails: a device that is full. *)
Definition fails_from (k : nat) (e : exn) : nat -> option exn :=
  fun i => if (k <=? i)%nat then Some e else None.

(** A seed linking to A and B, and A linking to C. *)
Definition bfs_web : list (string * soup) :=
  [("http://s/", page (Some "Seed") "seed" ["http://s/a"; "http://s/b"]);
   ("http://s/a", page (Some "A") "a" ["http://s/c"]);
   ("http://s/b", page (Some "B") "b" []);
   ("http://s/c", page (Some "C") "c" [])].

(** A seed linking to a page in a directory, which has a relative link. *)
Definition relative_web : list (string * soup) :=
  [("http://s/", page None "seed" ["d/p.html"]);
   ("http://s/d/p.html", page None "p" ["q.html"])].

(** A seed whose text matches the search term ["news"], linking to A. *)
Definition news_web : list (string * soup) :=
  [("http://s/", page (Some "Seed") "Latest NEWS" ["http://s/a"]);
   ("http://s/a", page (Some "A") "nothing" [])].

(** Four pages that all match the search term ["news"]: a seed linking to A
    and B, and A linking to C. *)
Definition matching_web : list (string * soup) :=
  [("http://s/", page (Some "Seed") "news of the seed" ["http://s/a"; "http://s/b"]);
   ("http://s/a", page (Some "A") "news of a" ["http://s/c"]);
   ("http://s/b", page (Some "B") "news of b" []);
   ("http://s/c", page (Some "C") "news of c" [])].

(** Two pages with an href that [urljoin] refuses. *)
Definition malformed_web : list (string * soup) :=
  [("http://s/", page (Some "Seed") "news"
                      ["http://s/a"; "http://[::1"; "http://s/b"]);
   ("http://s/a", page (Some "A") "news" ["http://[::1"])].

(** ** Lemmas on the monad and the trace *)

Lemma fetched_entries_app tr1 tr2 :
  fetched_entries (tr1 ++ tr2) = fetched_entries tr1 ++ fetched_entries tr2.
Proof. apply omap_app. Qed.

Lemma fetched_app tr1 tr2 : fetched (tr1 ++ tr2) = fetched tr1 ++ fetched tr2.
Proof. unfold fetched. rewrite fetched_entries_app. apply map_app. Qed.

Lemma dequeued_app tr1 tr2 : dequeued (tr1 ++ tr2) = dequeued tr1 ++ dequeued tr2.
Proof. apply omap_app. Qed.

Lemma enqueued_app tr1 tr2 : enqueued (tr1 ++ tr2) = enqueued tr1 ++ enqueued tr2.
Proof. apply omap_app. Qed.

Lemma console_app tr1 tr2 : console (tr1 ++ tr2) = console tr1 ++ console tr2.
Proof. apply omap_app. Qed.

Lemma deadline_checks_app tr1 tr2 :
  deadline_checks (tr1 ++ tr2) = (deadline_checks tr1 + deadline_checks tr2)%nat.
Proof. unfold deadline_checks. rewrite omap_app. apply length_app. Qed.

Lemma enqueued_map_Enqueue (new : list (string * Z)) :
  enqueued (map (fun e => Enqueue (fst e) (snd e)) new) = new.
Proof.
  induction new as [|[u d] new IH]; [reflexivity|].
  unfold enqueued in *. cbn. now rewrite IH.
Qed.

Lemma fetched_entries_map_Enqueue (new : list (string * Z)) :
  fetched_entries (map (fun e => Enqueue (fst e) (snd e)) new) = [].
Proof. induction new as [|[u d] new IH]; [reflexivity|]. exact IH. Qed.

Lemma dequeued_map_Enqueue (new : list (string * Z)) :
  dequeued (map (fun e => Enqueue (fst e) (snd e)) new) = [].
Proof. induction new as [|[u d] new IH]; [reflexivity|]. exact IH. Qed.

Lemma console_map_Enqueue (new : list (string * Z)) :
  console (map (fun e => Enqueue (fst e) (snd e)) new) = [].
Proof. induction new as [|[u d] new IH]; [reflexivity|]. exact IH. Qed.

Lemma deadline_checks_map_Enqueue (new : list (string * Z)) :
  deadline_checks (map (fun e => Enqueue (fst e) (snd e)) new) = 0%nat.
Proof. induction new as [|[u d] new IH]; [reflexivity|]. exact IH. Qed.

Lemma quiet_app tr1 tr2 : quiet tr1 -> quiet tr2 -> quiet (tr1 ++ tr2).
Proof.
  intros (F1 & D1 & E1) (F2 & D2 & E2). unfold quiet.
  rewrite fetched_entries_app, dequeued_app, enqueued_app.
  now rewrite F1, F2, D1, D2, E1, E2.
Qed.

Lemma quiet_nil : quiet [].
Proof. now unfold quiet. Qed.

Lemma quiet_print line : quiet [Print line].
Proof. now unfold quiet. Qed.

Lemma quiet_check t : quiet [DeadlineCheck t].
Proof. now unfold quiet. Qed.

#[local] Hint Resolve quiet_app quiet_nil quiet_print quiet_check : core.

Lemma add_entries_nil s : add_entries [] s = s.
Proof.
  destruct s. unfold add_entries. cbn. now rewrite !app_nil_r.
Qed.

Lemma add_entries_cons e new s :
  add_entries (e :: new) s =
  add_entries new (log (Enqueue (fst e) (snd e)) (set_frontier (urls_to_visit s ++ [e]) s)).
Proof.
  destruct s. unfold add_entries, log, set_frontier. cbn.
  now rewrite <- !app_assoc.
Qed.

(** Two lists of events built from the same pieces. *)
Ltac flatten_apps := rewrite <- ?app_assoc; cbn; rewrite <- ?app_assoc; reflexivity.

Section Facts.

Variable E : env.

(** *** The wrapper *)

Lemma scan_back_bounds text start k :
  (start <= scan_back text start k <= start + k)%nat.
Proof.
  induction k as [|k IH]; cbn; [lia|].
  destruct (not_space_at text (start + S k)); lia.
Qed.

(** The scan stops at the last space of [text[start+1 .. start+k]], and at
    [start] when there is none. *)
Lemma scan_back_stops_at_space text start k :
  scan_back text start k <> start ->
  not_space_at text (scan_back text start k) = false /\
  forall i, (scan_back text start k < i <= start + k)%nat ->
            not_space_at text i = true.
Proof.
  induction k as [|k IH]; cbn [scan_back]; [congruence|].
  destruct (not_space_at text (start + S k)) eqn:Hc.
  - intros Hne. destruct (IH Hne) as [Hsp Hafter]. split; [exact Hsp|].
    intros i Hi. destruct (Nat.eq_dec i (start + S k)%nat) as [->|Hi'];
      [exact Hc|apply Hafter; lia].
  - intros _. split; [exact Hc|]. intros i Hi. lia.
Qed.

Lemma scan_back_no_space text start k :
  (forall i, (start < i <= start + k)%nat -> not_space_at text i = true) ->
  scan_back text start k = start.
Proof.
  induction k as [|k IH]; intros Hno; cbn [scan_back]; [reflexivity|].
  rewrite (Hno (start + S k)%nat) by lia. apply IH. intros i Hi. apply Hno. lia.
Qed.

(** With no space in reach the line is cut at [start + max_line_length], and
    line 93 makes the loop resume one character after the cut. *)
Lemma line_end_forced_cut text max_line_length start :
  (start + max_line_length < String.length text)%nat ->
  (forall i, (start < i <= start + max_line_length)%nat ->
             not_space_at text i = true) ->
  line_end text max_line_length start = (start + max_line_length)%nat.
Proof.
  intros Hlt Hno. unfold line_end.
  destruct (Nat.ltb_spec (start + max_line_length) (String.length text)); [|lia].
  rewrite (scan_back_no_space _ _ _ Hno). now rewrite Nat.eqb_refl.
Qed.

(** A line that ends before [start + max_line_length] ends at a space
    character: no other character stops the scan of lines 86-87. *)
Lemma break_is_at_a_space text max_line_length start :
  (start + max_line_length < String.length text)%nat ->
  line_end text max_line_length start <> (start + max_line_length)%nat ->
  String.get (line_end text max_line_length start) text = Some " "%char.
Proof.
  intros Hlt Hne. unfold line_end in *.
  destruct (Nat.ltb_spec (start + max_line_length) (String.length text)); [|lia].
  destruct (Nat.eqb_spec (scan_back text start max_line_length) start)
    as [|Hfound]; [congruence|].
  destruct (scan_back_stops_at_space _ _ _ Hfound) as [Hsp _].
  unfold not_space_at in Hsp.
  destruct (String.get (scan_back text start max_line_length) text) as [c|];
    [|discriminate].
  apply negb_false_iff, Ascii.eqb_eq in Hsp. now subst c.
Qed.

Lemma wrap_loop_step fuel text max_line_length start :
  (start < String.length text)%nat ->
  wrap_loop E (S fuel) text max_line_length start
  = (file_write E (slice text start (line_end text max_line_length start) +:+ nl) ;;
     wrap_loop E fuel text max_line_length
               (line_end text max_line_length start + 1)).
Proof.
  intros Hlt. cbn [wrap_loop].
  destruct (Nat.ltb_spec start (String.length text)); [reflexivity|lia].
Qed.

Lemma line_end_ge text max_line_length start :
  (start < String.length text)%nat ->
  (start <= line_end text max_line_length start)%nat.
Proof.
  intros Hlt. unfold line_end.
  destruct (Nat.ltb_spec (start + max_line_length) (String.length text)); [|lia].
  pose proof (scan_back_bounds text start max_line_length).
  destruct (Nat.eqb_spec (scan_back text start max_line_length) start); lia.
Qed.

Lemma wrap_loop_enough_fuel fuel text max_line_length start f :
  (String.length text - start <= fuel)%nat ->
  fst (wrap_loop E fuel text max_line_length start f) <> OutOfFuel.
Proof.
  revert start f.
  induction fuel as [|fuel IH]; intros start f Hfuel; cbn [wrap_loop].
  - destruct (Nat.ltb_spec start (String.length text)); [lia|]. easy.
  - destruct (Nat.ltb_spec start (String.length text)) as [Hlt|]; [|easy].
    unfold bind, file_write.
    destruct (write_error E (write_calls f)); cbn; [easy|].
    apply IH. pose proof (line_end_ge text max_line_length start Hlt). lia.
Qed.

Lemma write_with_line_breaks_returns text max_line_length f :
  fst (write_with_line_breaks E text max_line_length f) <> OutOfFuel.
Proof. apply wrap_loop_enough_fuel. lia. Qed.

(** *** The loop body, statement by statement *)

Lemma enqueue_links_spec url links current_depth s :
  enqueue_links E url links current_depth s =
  (match links_error E url links current_depth with
   | Some e => Raise e
   | None => Ok tt
   end,
   add_entries (links_of E url links current_depth) s).
Proof.
  revert s. induction links as [|link rest IH]; intros s.
  - cbn. unfold ret. now rewrite add_entries_nil.
  - cbn [enqueue_links]. unfold links_of, links_error, bind.
    change (omap truthy (link :: rest))
      with (match truthy link with
            | Some y => y :: omap truthy rest
            | None => omap truthy rest
            end).
    destruct (truthy link) as [href|]; [|apply IH].
    cbn [join_all].
    destruct (urljoin E url href) as [e|joined].
    + cbn. now rewrite add_entries_nil.
    + unfold append_url, modify. rewrite IH. unfold links_of, links_error.
      destruct (join_all E url (omap truthy rest) current_depth)
        as [entries error].
      cbn [fst snd]. now rewrite add_entries_cons.
Qed.

Lemma report_match_cases search_string pg s r s' :
  report_match E search_string pg s = (r, s') ->
  r <> OutOfFuel /\
  visited_urls s' = visited_urls s /\
  urls_to_visit s' = urls_to_visit s /\
  clock_reads s' = clock_reads s /\
  exists tail, trace s' = trace s ++ tail /\ quiet tail /\
               deadline_checks tail = 0%nat.
Proof.
  unfold report_match.
  destruct (str_in (str_lower E search_string) (str_lower E (text pg))).
  - unfold bind, print, modify, on_file.
    change (out_file (log (Print ("Found article: " +:+
              match title pg with Some t => t | None => "No title found" end)) s))
      with (out_file s).
    destruct (write_with_line_breaks E (text pg) 80 (out_file s)) as [r0 f] eqn:Hw.
    intros [= <- <-]. cbn.
    pose proof (write_with_line_breaks_returns (text pg) 80 (out_file s)) as Hr.
    rewrite Hw in Hr. cbn in Hr.
    repeat split; auto. eexists; repeat split; eauto.
  - intros [= <- <-]. repeat split; try discriminate.
    exists []. rewrite app_nil_r. auto.
Qed.

Lemma deadline_check_spec start_time run_time s :
  let elapsed := (time_time E (clock_reads s) - start_time)%Q in
  let s1 := log (DeadlineCheck elapsed) (set_clock_reads (S (clock_reads s)) s) in
  deadline_check E start_time run_time s =
  if expired elapsed run_time
  then (Ok Break, log (Print "Scrape has timed out") s1)
  else (Ok Continue, s1).
Proof.
  cbn. unfold deadline_check, bind, now, modify, print. cbn.
  destruct (expired _ _); reflexivity.
Qed.


Lemma iteration_skip url depth search_string start_time run_time s u d rest :
  urls_to_visit s = (u, d) :: rest ->
  u ∈ visited_urls s \/ depth < d ->
  iteration E url depth search_string start_time run_time s =
  (Ok Continue, log (Dequeue u d) (set_frontier rest s)).
Proof.
  intros Hq Hskip. unfold iteration, bind, pop0. rewrite Hq. cbn.
  destruct Hskip as [Hin|Hd].
  - rewrite (bool_decide_true _ Hin). reflexivity.
  - apply Z.ltb_lt in Hd. rewrite Hd, orb_true_r. reflexivity.
Qed.

Lemma iteration_taken url depth search_string start_time run_time s u d rest :
  urls_to_visit s = (u, d) :: rest ->
  u ∉ visited_urls s -> d <= depth ->
  iteration E url depth search_string start_time run_time s =
  try_except
    (process_page E url search_string u d ;;
     deadline_check E start_time run_time)
    (fun e => print ("Error processing URL " +:+ u +:+ ": " +:+ str_exn e) ;;
              ret Continue)
    (taken u d rest s).
Proof.
  intros Hq Hnin Hd. unfold iteration, bind at 1, pop0. rewrite Hq. cbn.
  rewrite (bool_decide_false _ Hnin).
  apply Z.ltb_ge in Hd. rewrite Hd. reflexivity.
Qed.

Lemma process_page_error url search_string u d s e :
  requests_get E u = inl e ->
  process_page E url search_string u d s = (Raise e, log (Fetch u d) s).
Proof. intros H. unfold process_page, bind, modify. cbn. now rewrite H. Qed.

Lemma process_page_soup url search_string u d s pg :
  requests_get E u = inr pg ->
  process_page E url search_string u d s =
  let s2 := add_entries (links_of E url (anchors pg) d) (log (Fetch u d) s) in
  match links_error E url (anchors pg) d with
  | Some e => (Raise e, s2)
  | None => report_match E search_string pg s2
  end.
Proof.
  intros H. unfold process_page, bind, modify. cbn. rewrite H.
  rewrite enqueue_links_spec.
  now destruct (links_error E url (anchors pg) d).
Qed.

Lemma join_all_depth url hrefs d :
  Forall (fun e : string * Z => snd e = d + 1) (fst (join_all E url hrefs d)).
Proof.
  induction hrefs as [|href rest IH]; cbn [join_all]; [constructor|].
  destruct (urljoin E url href) as [e|joined]; [constructor|].
  destruct (join_all E url rest d) as [entries error]. cbn [fst] in *.
  constructor; [reflexivity|exact IH].
Qed.

Lemma links_of_depth url links d :
  Forall (fun e : string * Z => snd e = d + 1) (links_of E url links d).
Proof. apply join_all_depth. Qed.

(** An iteration never raises and needs no fuel; it either skips the entry
    or takes it, and then all it adds to the queue has the next depth. *)
Lemma iteration_cases url depth search_string start_time run_time s u d rest :
  urls_to_visit s = (u, d) :: rest ->
  exists c s',
    iteration E url depth search_string start_time run_time s = (Ok c, s') /\
    (((u ∈ visited_urls s \/ depth < d) /\ c = Continue /\
      s' = log (Dequeue u d) (set_frontier rest s))
     \/
     ((u ∉ visited_urls s) /\ d <= depth /\
      visited_urls s' = visited_urls s ∪ {[u]} /\
      exists new tail,
        new = discovered E url u d /\
        urls_to_visit s' = rest ++ new /\
        Forall (fun e : string * Z => snd e = d + 1) new /\
        trace s' = trace s ++ [Dequeue u d; Fetch u d]
                           ++ map (fun e => Enqueue (fst e) (snd e)) new ++ tail /\
        quiet tail)).
Proof.
  intros Hq.
  destruct (decide (u ∈ visited_urls s)) as [Hin|Hnin].
  { eexists _, _. split; [apply (iteration_skip _ _ _ _ _ _ _ _ _ Hq); auto|].
    left. auto. }
  destruct (Z.lt_ge_cases depth d) as [Hd|Hd].
  { eexists _, _. split; [apply (iteration_skip _ _ _ _ _ _ _ _ _ Hq); auto|].
    left. auto. }
  rewrite (iteration_taken _ _ _ _ _ _ _ _ _ Hq Hnin Hd).
  unfold try_except, bind at 1.
  destruct (requests_get E u) as [e|pg] eqn:Hget.
  - rewrite (process_page_error _ _ _ _ _ _ Hget).
    eexists _, _. split; [reflexivity|]. right. split_and!; auto.
    exists [], [Print ("Error processing URL " +:+ u +:+ ": " +:+ str_exn e)].
    unfold discovered. rewrite Hget.
    cbn. rewrite app_nil_r. split_and!; auto; flatten_apps.
  - rewrite (process_page_soup _ _ _ _ _ _ Hget).
    set (new := links_of E url (anchors pg) d).
    assert (Hnew : new = discovered E url u d).
    { unfold discovered. now rewrite Hget. }
    cbn zeta.
    destruct (links_error E url (anchors pg) d) as [e|].
    { eexists _, _. split; [reflexivity|]. right. split_and!; auto.
      exists new, [Print ("Error processing URL " +:+ u +:+ ": " +:+ str_exn e)].
      cbn. split_and!; auto; first [apply links_of_depth | flatten_apps]. }
    destruct (report_match E search_string pg _) as [r s3] eqn:Hrep.
    apply report_match_cases in Hrep
      as (Hr & Hv & Hf & _ & tail & Htr & Hquiet & _).
    cbn in Hv, Hf, Htr.
    assert (Hbase : trace s3 = trace s ++ [Dequeue u d; Fetch u d]
              ++ map (fun e => Enqueue (fst e) (snd e)) new ++ tail).
    { rewrite Htr. flatten_apps. }
    destruct r as [[]|e|]; [| |congruence].
    + rewrite deadline_check_spec.
      destruct (expired _ _); eexists _, _; (split; [reflexivity|]); right;
        (split_and!; auto); exists new.
      * exists (tail ++ [DeadlineCheck (time_time E (clock_reads s3) - start_time)%Q;
                         Print "Scrape has timed out"]).
        cbn. rewrite Hf, Hbase.
        split_and!; auto; first [apply links_of_depth | flatten_apps].
      * exists (tail ++ [DeadlineCheck (time_time E (clock_reads s3) - start_time)%Q]).
        cbn. rewrite Hf, Hbase.
        split_and!; auto; first [apply links_of_depth | flatten_apps].
    + eexists _, _. split; [reflexivity|]. right. split_and!; auto.
      exists new, (tail ++ [Print ("Error processing URL " +:+ u +:+ ": " +:+ str_exn e)]).
      cbn. rewrite Hf, Hbase.
      split_and!; auto; first [apply links_of_depth | flatten_apps].
Qed.

(** A taken entry whose fetch gives a page appends the links of the page,
    each joined to [url], the start URL, and paired with the next depth,
    whether or not they were visited and whatever the depth limit is, up to
    the first href that [urljoin] refuses. *)
Lemma iteration_appends_links url depth search_string start_time run_time
    s u d rest pg :
  urls_to_visit s = (u, d) :: rest ->
  u ∉ visited_urls s -> d <= depth ->
  requests_get E u = inr pg ->
  exists c s',
    iteration E url depth search_string start_time run_time s = (Ok c, s') /\
    urls_to_visit s'
    = rest ++ fst (join_all E url (omap truthy (anchors pg)) d).
Proof.
  intros Hq Hnin Hd Hget.
  destruct (iteration_cases url depth search_string start_time run_time
              s u d rest Hq) as (c & s' & Hit & Hcases).
  exists c, s'. split; [exact Hit|].
  destruct Hcases as [([Hin|Hlt] & _)|(_ & _ & _ & new & tail & -> & -> & _)].
  - contradiction.
  - lia.
  - unfold discovered. now rewrite Hget.
Qed.

(** *** The loop and the session *)

Lemma while_preserves (I : state -> Prop) url depth search_string start_time run_time :
  (forall s c s', urls_to_visit s <> [] -> I s ->
     iteration E url depth search_string start_time run_time s = (Ok c, s') ->
     I s') ->
  forall fuel s, I s ->
    I (snd (while_urls_to_visit E fuel url depth search_string start_time run_time s)).
Proof.
  intros Hstep fuel. induction fuel as [|fuel IH]; intros s Hs; cbn.
  - destruct (urls_to_visit s); exact Hs.
  - destruct (urls_to_visit s) as [|[u d] rest] eqn:Hq; [exact Hs|].
    destruct (iteration_cases url depth search_string start_time run_time
                s u d rest Hq) as (c & s' & Hit & _).
    unfold bind. rewrite Hit.
    assert (Hs' : I s') by (eapply Hstep; eauto; congruence).
    destruct c; [apply IH; exact Hs'|exact Hs'].
Qed.

Lemma while_never_raises fuel url depth search_string start_time run_time s e :
  fst (while_urls_to_visit E fuel url depth search_string start_time run_time s)
  <> Raise e.
Proof.
  revert s. induction fuel as [|fuel IH]; intros s; cbn.
  - destruct (urls_to_visit s); easy.
  - destruct (urls_to_visit s) as [|[u d] rest] eqn:Hq; [easy|].
    destruct (iteration_cases url depth search_string start_time run_time
                s u d rest Hq) as (c & s' & Hit & _).
    unfold bind. rewrite Hit. destruct c; [apply IH|easy].
Qed.

Lemma set_file_same s : set_file (out_file s) s = s.
Proof. now destruct s. Qed.

Lemma outer_handler_prints output_file e s :
  outer_handler output_file e s
  = (Ok tt, log (Print (outer_message output_file e)) s).
Proof. unfold outer_handler, outer_message. now destruct (is_IOError e). Qed.

(** The header, written to a file just opened. *)
Lemma write_header_ok url depth search_string s :
  header_write_error E = None ->
  write_header E url depth search_string (set_file empty_file s)
  = (Ok tt, set_file {| chunks := header_lines url depth search_string;
                        write_calls := 3 |} s).
Proof.
  unfold header_write_error, write_header. intros H.
  unfold bind, on_file, file_write. cbn.
  destruct (write_error E 0); [discriminate|]. cbn.
  destruct (write_error E 1); [discriminate|]. cbn.
  rewrite H. reflexivity.
Qed.

Lemma write_header_fails url depth search_string s e :
  header_write_error E = Some e ->
  exists k f,
    (k < 3)%nat /\
    chunks f = take k (header_lines url depth search_string) /\
    write_header E url depth search_string (set_file empty_file s)
    = (Raise e, set_file f s).
Proof.
  unfold header_write_error, write_header. intros H.
  unfold bind, on_file, file_write. cbn.
  destruct (write_error E 0); cbn.
  { injection H as ->. exists O. eexists. split_and!; [lia| |reflexivity].
    reflexivity. }
  destruct (write_error E 1); cbn.
  { injection H as ->. exists 1%nat. eexists.
    split_and!; [lia| |reflexivity]. reflexivity. }
  rewrite H. exists 2%nat. eexists. split_and!; [lia| |reflexivity].
  reflexivity.
Qed.

Lemma scrape_articles_unfold fuel url depth search_string output_file run_time :
  scrape_articles E fuel url depth search_string output_file run_time initial_state =
  try_except
    (with_open E output_file
       (write_header E url depth search_string ;;
        while_urls_to_visit E fuel url depth search_string (time_time E 0)
                            run_time))
    (outer_handler output_file)
    (start_state url).
Proof. reflexivity. Qed.

(** A session whose header fails prints one line and stops: the file holds
    the header lines written before the failure. *)
Lemma scrape_articles_header_failed fuel url depth search_string output_file
    run_time e :
  header_error E output_file = Some e ->
  exists k f,
    (k < 3)%nat /\
    chunks f = take k (header_lines url depth search_string) /\
    scrape_articles E fuel url depth search_string output_file run_time
                    initial_state
    = (Ok tt, log (Print (outer_message output_file e))
                  (set_file f (start_state url))).
Proof.
  intros Hhdr. rewrite scrape_articles_unfold.
  unfold header_error in Hhdr. unfold try_except, with_open.
  destruct (open_w E output_file) as [e0|].
  { injection Hhdr as ->. exists O, empty_file.
    split_and!; [lia|reflexivity|]. unfold raise.
    now rewrite outer_handler_prints. }
  destruct (header_write_error E) as [e0|] eqn:Hw; [|discriminate].
  destruct (write_header_fails url depth search_string (start_state url) e0 Hw)
    as (k & f & Hk & Hch & Hrun).
  exists k, f. split_and!; [exact Hk|exact Hch|].
  unfold bind at 1, modify. unfold bind. rewrite Hrun.
  destruct (close_error E) as [e'|]; injection Hhdr as <-;
    now rewrite outer_handler_prints.
Qed.

(** A session whose header is written is the loop run after it, followed by
    the closing of the file. *)
Lemma scrape_articles_header_ok fuel url depth search_string output_file
    run_time :
  header_error E output_file = None ->
  scrape_articles E fuel url depth search_string output_file run_time
                  initial_state
  = match while_urls_to_visit E fuel url depth search_string (time_time E 0)
            run_time
            (set_file {| chunks := header_lines url depth search_string;
                         write_calls := 3 |} (start_state url)) with
    | (Ok _, s') => (Ok tt, closing E output_file s')
    | (r, s') => (r, s')
    end.
Proof.
  intros Hhdr. rewrite scrape_articles_unfold.
  unfold header_error in Hhdr. unfold try_except, with_open.
  destruct (open_w E output_file) as [e0|]; [discriminate|].
  destruct (header_write_error E) as [e0|] eqn:Hw; [discriminate|].
  unfold bind at 1, modify. unfold bind.
  rewrite (write_header_ok url depth search_string (start_state url) Hw).
  match goal with
  | |- context [while_urls_to_visit E fuel url depth search_string ?t run_time ?s0] =>
      pose proof (while_never_raises fuel url depth search_string t run_time s0)
        as Hnr;
      destruct (while_urls_to_visit E fuel url depth search_string t run_time s0)
        as [[[]|e|] s']
  end; cbn in Hnr.
  - unfold closing. destruct (close_error E) as [e'|]; [|reflexivity].
    now rewrite outer_handler_prints.
  - now destruct (Hnr e).
  - reflexivity.
Qed.

(** A property of states that the file and the console do not affect and
    that every iteration keeps holds when the session ends, however it ends. *)
Lemma session_preserves (I : state -> Prop) url depth search_string output_file run_time :
  (forall s f, I s -> I (set_file f s)) ->
  (forall s line, I s -> I (log (Print line) s)) ->
  (forall s c s', urls_to_visit s <> [] -> I s ->
     iteration E url depth search_string (time_time E 0) run_time s = (Ok c, s') ->
     I s') ->
  I (start_state url) ->
  forall fuel, I (session E fuel url depth search_string output_file run_time).
Proof.
  intros Hfile Hprint Hstep Hstart fuel. unfold session.
  destruct (header_error E output_file) as [e|] eqn:Hhdr.
  - destruct (scrape_articles_header_failed fuel url depth search_string
                output_file run_time e Hhdr) as (k & f & _ & _ & ->).
    cbn [snd]. apply Hprint, Hfile, Hstart.
  - rewrite (scrape_articles_header_ok fuel url depth search_string output_file
               run_time Hhdr).
    pose proof (while_preserves I url depth search_string (time_time E 0) run_time
                  Hstep fuel _ (Hfile _ {| chunks := header_lines url depth
                                                       search_string;
                                           write_calls := 3 |} Hstart)) as Hend.
    destruct (while_urls_to_visit E fuel url depth search_string (time_time E 0)
                run_time _) as [[[]|e|] s']; cbn [snd] in *; auto.
    unfold closing. destruct (close_error E); auto.
Qed.

(** [scrape_articles] catches every exception. *)
Lemma scrape_articles_never_raises fuel url depth search_string output_file run_time s e :
  fst (scrape_articles E fuel url depth search_string output_file run_time s)
  <> Raise e.
Proof.
  unfold scrape_articles, bind, now, modify, try_except. cbn.
  match goal with
  | |- context [with_open E output_file ?body ?s0] =>
      destruct (with_open E output_file body s0) as [[[]|e'|] s']
  end; cbn; try easy.
  now rewrite outer_handler_prints.
Qed.

(** *** What a taken entry adds to the trace *)

Lemma taken_fetched_entries tr u d new tail :
  quiet tail ->
  fetched_entries (tr ++ [Dequeue u d; Fetch u d]
                      ++ map (fun e => Enqueue (fst e) (snd e)) new ++ tail)
  = fetched_entries tr ++ [(u, d)].
Proof.
  intros (Hf & _ & _). rewrite !fetched_entries_app, fetched_entries_map_Enqueue, Hf.
  reflexivity.
Qed.

Lemma taken_dequeued tr u d new tail :
  quiet tail ->
  dequeued (tr ++ [Dequeue u d; Fetch u d]
               ++ map (fun e => Enqueue (fst e) (snd e)) new ++ tail)
  = dequeued tr ++ [(u, d)].
Proof.
  intros (_ & Hd & _). rewrite !dequeued_app, dequeued_map_Enqueue, Hd.
  reflexivity.
Qed.

Lemma taken_enqueued tr u d new tail :
  quiet tail ->
  enqueued (tr ++ [Dequeue u d; Fetch u d]
               ++ map (fun e => Enqueue (fst e) (snd e)) new ++ tail)
  = enqueued tr ++ new.
Proof.
  intros (_ & _ & He). rewrite !enqueued_app, enqueued_map_Enqueue, He.
  cbn. now rewrite app_nil_r.
Qed.

(** *** The invariant of the fetches *)


Lemma fetch_inv_iteration url depth search_string start_time run_time s c s' :
  urls_to_visit s <> [] -> fetch_inv depth s ->
  iteration E url depth search_string start_time run_time s = (Ok c, s') ->
  fetch_inv depth s'.
Proof.
  intros Hne (Hnd & Hvis & Hdep) Hit.
  destruct (urls_to_visit s) as [|[u d] rest] eqn:Hq; [congruence|].
  destruct (iteration_cases url depth search_string start_time run_time
              s u d rest Hq) as (c0 & s0 & Hit0 & Hcases).
  rewrite Hit in Hit0. injection Hit0 as <- <-.
  destruct Hcases as [(_ & _ & ->)
                     |(Hnin & Hd & Hv & new & tail & _ & _ & _ & Htr & Hquiet)].
  - unfold fetch_inv. cbn. unfold fetched.
    rewrite fetched_entries_app. cbn. rewrite app_nil_r. auto.
  - unfold fetch_inv, fetched.
    rewrite Htr, (taken_fetched_entries _ _ _ _ _ Hquiet), map_app, Hv. cbn.
    split_and!.
    + apply NoDup_app. split_and!; [exact Hnd| |apply NoDup_singleton].
      intros x Hx Hx'. apply list_elem_of_singleton in Hx' as ->.
      apply Hnin, Hvis, Hx.
    + intros x Hx. apply elem_of_app in Hx as [Hx|Hx].
      * apply elem_of_union_l, Hvis, Hx.
      * apply list_elem_of_singleton in Hx. subst x.
        now apply elem_of_union_r, elem_of_singleton.
    + apply Forall_app. split; [exact Hdep|]. repeat constructor. exact Hd.
Qed.

Lemma fetch_inv_session fuel url depth search_string output_file run_time :
  fetch_inv depth (session E fuel url depth search_string output_file run_time).
Proof.
  apply session_preserves.
  - intros s f Hs. exact Hs.
  - intros s line (Hnd & Hvis & Hdep). unfold fetch_inv, fetched. cbn.
    rewrite fetched_entries_app. cbn. rewrite app_nil_r. auto.
  - intros s c s'. apply fetch_inv_iteration.
  - unfold fetch_inv. cbn. split_and!; [constructor| |constructor].
    intros u Hu. inversion Hu.
Qed.

(** *** The invariant of the queue *)


Lemma queue_inv_iteration url depth search_string start_time run_time s c s' :
  urls_to_visit s <> [] -> queue_inv url s ->
  iteration E url depth search_string start_time run_time s = (Ok c, s') ->
  queue_inv url s'.
Proof.
  intros Hne (Hfifo & Hsub & Hsorted & Hhead) Hit.
  destruct (urls_to_visit s) as [|[u d] rest] eqn:Hq; [congruence|].
  destruct (iteration_cases url depth search_string start_time run_time
              s u d rest Hq) as (c0 & s0 & Hit0 & Hcases).
  rewrite Hit in Hit0. injection Hit0 as <- <-.
  assert (Hrest_ge : forall e, e ∈ rest -> d <= snd e).
  { intros e He. rewrite map_app in Hsorted.
    apply StronglySorted_app in Hsorted as (_ & _ & Hs2).
    cbn in Hs2. apply StronglySorted_cons in Hs2 as [Hall _].
    rewrite Forall_forall in Hall. apply Hall.
    apply list_elem_of_fmap. now exists e. }
  assert (Hrest_le : forall e, e ∈ rest -> snd e <= d + 1).
  { intros e He. apply (Hhead e (u, d)); [now right|reflexivity]. }
  assert (Hcons : forall (l : list (string * Z)),
             l ++ (u, d) :: rest = (l ++ [(u, d)]) ++ rest).
  { intros l. now rewrite <- app_assoc. }
  destruct Hcases as [(_ & _ & ->)
                     |(_ & _ & _ & new & tail & _ & Hf & Hnew & Htr & Hquiet)].
  - unfold queue_inv. cbn.
    rewrite enqueued_app, dequeued_app, fetched_entries_app. cbn.
    rewrite !app_nil_r, <- Hcons. split_and!; auto.
    + now apply sublist_inserts_r.
    + intros e h He Hh. destruct rest as [|h' rest']; [inversion He|].
      injection Hh as <-.
      specialize (Hrest_ge h' ltac:(left)). specialize (Hrest_le e He). lia.
  - unfold queue_inv.
    rewrite Htr, Hf, (taken_fetched_entries _ _ _ _ _ Hquiet),
      (taken_dequeued _ _ _ _ _ Hquiet), (taken_enqueued _ _ _ _ _ Hquiet).
    rewrite Forall_forall in Hnew.
    split_and!.
    + rewrite app_comm_cons, Hfifo, Hcons. now rewrite app_assoc.
    + now apply sublist_app.
    + rewrite app_assoc, <- Hcons, map_app.
      apply StronglySorted_app_2; [|exact Hsorted|].
      * intros x1 x2 Hx1 Hx2.
        apply list_elem_of_fmap in Hx2 as (e2 & -> & He2).
        apply Hnew in He2. rewrite He2.
        rewrite map_app in Hx1. apply elem_of_app in Hx1 as [Hx1|Hx1].
        -- rewrite map_app in Hsorted.
           apply StronglySorted_app in Hsorted as (Hle & _ & _).
           specialize (Hle x1 d Hx1 ltac:(left)). lia.
        -- apply list_elem_of_fmap in Hx1 as (e1 & -> & He1).
           apply elem_of_cons in He1 as [->|He1]; [cbn; lia|].
           now apply Hrest_le.
      * clear - Hnew. induction new as [|e new IH]; cbn; constructor.
        -- apply IH. intros x Hx. apply Hnew. now right.
        -- apply Forall_forall. intros x Hx.
           apply list_elem_of_fmap in Hx as (e' & -> & He').
           rewrite (Hnew e ltac:(now left)), (Hnew e' ltac:(now right)). lia.
    + intros e h He Hh.
      assert (Hh_ge : d <= snd h).
      { destruct rest as [|h' rest']; cbn in Hh.
        - destruct new as [|n new']; [discriminate|]. injection Hh as <-.
          rewrite (Hnew n ltac:(now left)). lia.
        - injection Hh as <-. apply Hrest_ge. left. }
      apply elem_of_app in He as [He|He].
      * specialize (Hrest_le e He). lia.
      * apply Hnew in He. lia.
Qed.

Lemma queue_inv_session fuel url depth search_string output_file run_time :
  queue_inv url (session E fuel url depth search_string output_file run_time).
Proof.
  apply session_preserves.
  - intros s f Hs. exact Hs.
  - intros s line (Hfifo & Hsub & Hsorted & Hhead). unfold queue_inv. cbn.
    rewrite enqueued_app, dequeued_app, fetched_entries_app. cbn.
    rewrite !app_nil_r. auto.
  - intros s c s'. apply queue_inv_iteration.
  - unfold queue_inv. cbn. split_and!; auto.
    + repeat constructor.
    + intros e h He [= <-]. apply list_elem_of_singleton in He as ->. cbn. lia.
Qed.

End Facts.

(** *** Further facts used by the claims *)

Lemma StronglySorted_sublist {A} (R : A -> A -> Prop) (l1 l2 : list A) :
  l1 `sublist_of` l2 -> StronglySorted R l2 -> StronglySorted R l1.
Proof.
  induction 1 as [|x l1 l2 Hsub IH|x l1 l2 Hsub IH]; intros Hs.
  - constructor.
  - apply StronglySorted_cons in Hs as [Hall Hs]. constructor; [auto|].
    rewrite Forall_forall in *. intros y Hy. apply Hall.
    eapply elem_of_sublist; eauto.
  - apply StronglySorted_cons in Hs as [_ Hs]. auto.
Qed.

Lemma substring_whole (s : string) : String.substring 0 (String.length s) s = s.
Proof. induction s as [|c s IH]; cbn; [reflexivity|]. now rewrite IH. Qed.

Lemma line_end_last text max_line_length start :
  (String.length text <= start + max_line_length)%nat ->
  line_end text max_line_length start = String.length text.
Proof.
  intros H. unfold line_end.
  destruct (Nat.ltb_spec (start + max_line_length) (String.length text)); [lia|].
  reflexivity.
Qed.

Lemma wrap_loop_done (E : env) fuel text max_line_length start f :
  (String.length text <= start)%nat ->
  wrap_loop E fuel text max_line_length start f = (Ok tt, f).
Proof.
  intros H.
  destruct fuel; cbn [wrap_loop];
    destruct (Nat.ltb_spec start (String.length text)); try lia; reflexivity.
Qed.

(** Reduce the projections of an updated state, and nothing else. *)
Ltac simpl_state :=
  cbn [trace visited_urls urls_to_visit out_file clock_reads
       log add_entries set_file set_frontier set_visited set_clock_reads taken].

Lemma expired_iff elapsed_time run_time :
  expired elapsed_time run_time = true <-> (run_time < elapsed_time)%Q.
Proof.
  unfold expired. rewrite negb_true_iff.
  destruct (Qle_bool elapsed_time run_time) eqn:Hle.
  - apply Qle_bool_iff in Hle. split; [discriminate|].
    intros Hlt. exfalso. exact (Qlt_not_le _ _ Hlt Hle).
  - split; [intros _|reflexivity].
    apply Qnot_le_lt. intros Hle'. apply Qle_bool_iff in Hle'. congruence.
Qed.


Lemma process_page_checks (E : env) url search_string u d s r s' :
  process_page E url search_string u d s = (r, s') ->
  deadline_checks (trace s') = deadline_checks (trace s).
Proof.
  destruct (requests_get E u) as [e|pg] eqn:Hget.
  - rewrite (process_page_error E _ _ _ _ _ _ Hget). intros [= <- <-].
    simpl_state. rewrite deadline_checks_app. cbn. lia.
  - rewrite (process_page_soup E _ _ _ _ _ _ Hget). cbn zeta.
    destruct (links_error E url (anchors pg) d).
    { intros [= <- <-]. simpl_state.
      rewrite !deadline_checks_app, deadline_checks_map_Enqueue. cbn. lia. }
    intros Hrep.
    apply report_match_cases in Hrep as (_ & _ & _ & _ & tail & -> & _ & Htail).
    simpl_state. rewrite !deadline_checks_app, deadline_checks_map_Enqueue, Htail.
    cbn. lia.
Qed.

Lemma while_empty (E : env) fuel url depth search_string start_time run_time s :
  urls_to_visit s = [] ->
  while_urls_to_visit E fuel url depth search_string start_time run_time s
  = (Ok tt, s).
Proof. intros H. destruct fuel; cbn; now rewrite H. Qed.

(** *** Termination *)

Section Termination.

Variable E : env.
Variable url : string.
Variable depth : Z.

Lemma discovered_depth u d :
  Forall (fun e : string * Z => snd e = d + 1) (discovered E url u d).
Proof.
  unfold discovered. destruct (requests_get E u); [constructor|].
  apply links_of_depth.
Qed.

Lemma entry_cost_pos e : (1 <= entry_cost E url depth e)%nat.
Proof. unfold entry_cost. destruct (Z.to_nat _); cbn; lia. Qed.

Lemma queue_cost_app q1 q2 :
  queue_cost E url depth (q1 ++ q2)
  = (queue_cost E url depth q1 + queue_cost E url depth q2)%nat.
Proof. unfold queue_cost. now rewrite map_app, list_sum_app. Qed.

Lemma queue_cost_cons e q :
  queue_cost E url depth (e :: q)
  = (entry_cost E url depth e + queue_cost E url depth q)%nat.
Proof. reflexivity. Qed.

Lemma entry_cost_taken u d :
  d <= depth ->
  entry_cost E url depth (u, d)
  = S (queue_cost E url depth (discovered E url u d)).
Proof.
  intros Hd. unfold entry_cost, queue_cost. cbn [fst snd].
  replace (depth + 1 - d) with (Z.succ (depth - d)) by lia.
  rewrite Z2Nat.inj_succ by lia.
  cbn [tree_size]. f_equal. f_equal.
  pose proof (discovered_depth u d) as Hall. rewrite Forall_forall in Hall.
  apply map_ext_in. intros e He. apply list_elem_of_In, Hall in He.
  unfold entry_cost. rewrite He. f_equal. lia.
Qed.

(** Every iteration lowers the cost of the queue. *)
Lemma iteration_decreases search_string start_time run_time s c s' :
  urls_to_visit s <> [] ->
  iteration E url depth search_string start_time run_time s = (Ok c, s') ->
  (S (queue_cost E url depth (urls_to_visit s'))
   <= queue_cost E url depth (urls_to_visit s))%nat.
Proof.
  intros Hne Hit.
  destruct (urls_to_visit s) as [|[u d] rest] eqn:Hq; [congruence|].
  destruct (iteration_cases E url depth search_string start_time run_time
              s u d rest Hq) as (c0 & s0 & Hit0 & Hcases).
  rewrite Hit in Hit0. injection Hit0 as <- <-.
  rewrite queue_cost_cons.
  destruct Hcases as [(_ & _ & ->)
                     |(_ & Hd & _ & new & tail & -> & -> & _)].
  - cbn [urls_to_visit log set_frontier].
    pose proof (entry_cost_pos (u, d)). lia.
  - rewrite queue_cost_app, (entry_cost_taken u d Hd). lia.
Qed.

(** With as much fuel as the cost of the queue the loop ends normally. *)
Lemma while_terminates fuel search_string start_time run_time s :
  (queue_cost E url depth (urls_to_visit s) <= fuel)%nat ->
  fst (while_urls_to_visit E fuel url depth search_string start_time run_time s)
  = Ok tt.
Proof.
  revert s. induction fuel as [|fuel IH]; intros s Hcost.
  - destruct (urls_to_visit s) as [|e rest] eqn:Hq.
    + cbn. now rewrite Hq.
    + rewrite queue_cost_cons in Hcost.
      pose proof (entry_cost_pos e). lia.
  - cbn [while_urls_to_visit].
    destruct (urls_to_visit s) as [|[u d] rest] eqn:Hq; [reflexivity|].
    destruct (iteration_cases E url depth search_string start_time run_time
                s u d rest Hq) as (c & s' & Hit & _).
    unfold bind. rewrite Hit.
    assert (Hne : urls_to_visit s <> []) by congruence.
    pose proof (iteration_decreases _ _ _ _ _ _ Hne Hit) as Hdec.
    rewrite Hq in Hdec.
    destruct c; [apply IH; lia|reflexivity].
Qed.

(** A session given [enough_fuel] ends normally. *)
Lemma session_terminates fuel search_string output_file run_time :
  (enough_fuel E url depth <= fuel)%nat ->
  session_outcome E fuel url depth search_string output_file run_time = Ok tt.
Proof.
  intros Hfuel. unfold session_outcome.
  destruct (header_error E output_file) as [e|] eqn:Hhdr.
  - now destruct (scrape_articles_header_failed E fuel url depth search_string
                    output_file run_time e Hhdr) as (k & f & _ & _ & ->).
  - rewrite (scrape_articles_header_ok E fuel url depth search_string output_file
               run_time Hhdr).
    pose proof (while_terminates fuel search_string (time_time E 0) run_time
                  (set_file {| chunks := header_lines url depth search_string;
                               write_calls := 3 |} (start_state url)) Hfuel)
      as Hend.
    destruct (while_urls_to_visit E fuel url depth search_string (time_time E 0)
                run_time _) as [r s'].
    cbn in Hend. now subst r.
Qed.

End Termination.

(** ** The claims *)

(** C1: the code at a page in a directory.  Line 120 passes [url], the
    start URL of the session, to [urljoin], not [current_url]: the relative
    link [q.html] of the page [http://s/d/p.html] is queued as
    [http://s/q.html], while resolved against its own page it is
    [http://s/d/q.html]. *)
Theorem links_are_resolved_against_the_start_url :
  let E := example_env relative_web None no_error in
  enqueued (trace (session E 10 "http://s/" 5 "news" "out.txt" 100%Q))
  = [("http://s/d/p.html", 1); ("http://s/q.html", 2)]
  /\ urljoin E "http://s/d/p.html" "q.html" = inr "http://s/d/q.html".
Proof. split; vm_compute; reflexivity. Qed.

(** C2: the code at a text without whitespace that is longer than the
    width.  After a forced cut line 93 still adds one to [end], so the
    character at the cut is lost: ten characters at width 3 give three
    lines, not four, without [d] and [h]; 81 characters at the width 80 of
    the program give one line, not two, and the last character is lost. *)
Theorem forced_cut_loses_a_character :
  let E := example_env [] None no_error in
  chunks (snd (write_with_line_breaks E "abcdefghij" 3 empty_file))
  = ["abc" +:+ nl; "efg" +:+ nl; "ij" +:+ nl]
  /\
  chunks (snd (write_with_line_breaks E (copies 80 "a" +:+ "b") 80 empty_file))
  = [copies 80 "a" +:+ nl].
Proof. split; vm_compute; reflexivity. Qed.




(** C4: the code after a page whose processing raised.  The check of
    lines 128-131 is the last statement of the [try] block of line 113, so
    an exception raised after the fetch (by a write of the text of a
    matching page, or by [urljoin] on an href) jumps over it to line 133 and
    the next entry is taken with no check in between.  With a budget of 0
    seconds, which every check finds exceeded, and a device that is full,
    the four pages of the web are fetched, no check is made and the timeout
    line is never printed; when the writes succeed the same session stops
    after its first page.  The same happens on pages with an href that
    [urljoin] refuses, and with a budget that is not exceeded the page whose
    write failed is followed by the next dequeue and not by a check. *)
Theorem deadline_check_is_skipped_after_a_page_that_raised :
  let no_space := IOError "[Errno 28] No space left on device" in
  (let E := example_env matching_web None (fails_from 3 no_space) in
   let s := session E 10 "http://s/" 2 "news" "out.txt" 0%Q in
   fetched (trace s) = ["http://s/"; "http://s/a"; "http://s/b"; "http://s/c"] /\
   deadline_checks (trace s) = 0%nat /\
   (timeout_line ∉ console (trace s)))
  /\
  (let E := example_env matching_web None no_error in
   let s := session E 10 "http://s/" 2 "news" "out.txt" 0%Q in
   fetched (trace s) = ["http://s/"] /\
   deadline_checks (trace s) = 1%nat /\
   console (trace s) = ["Found article: Seed"; timeout_line])
  /\
  (let E := example_env malformed_web None no_error in
   let s := session E 10 "http://s/" 2 "news" "out.txt" 0%Q in
   trace s
   = [Dequeue "http://s/" 0; Fetch "http://s/" 0; Enqueue "http://s/a" 1;
      Print "Error processing URL http://s/: Invalid IPv6 URL";
      Dequeue "http://s/a" 1; Fetch "http://s/a" 1;
      Print "Error processing URL http://s/a: Invalid IPv6 URL"])
  /\
  (let E := example_env news_web None (fails_at 3 no_space) in
   trace (session E 10 "http://s/" 2 "news" "out.txt" 100%Q)
   = [Dequeue "http://s/" 0; Fetch "http://s/" 0; Enqueue "http://s/a" 1;
      Print "Found article: Seed";
      Print "Error processing URL http://s/: [Errno 28] No space left on device";
      Dequeue "http://s/a" 1; Fetch "http://s/a" 1; DeadlineCheck (1 # 1)]).
Proof.
  intros no_space. subst no_space. cbv zeta.
  split_and!; try (vm_compute; reflexivity).
  apply (bool_decide_unpack _). vm_compute. exact I.
Qed.

(** C5: within a session no URL is fetched more than once, however often it
    is linked or queued, and every fetched URL is marked visited.  A URL
    whose fetch fails has been marked visited when it was dequeued, its
    error is logged, and the loop continues with the entries that were
    queued behind it; since it is in the list of fetched URLs, it is not
    fetched again. *)
Theorem no_url_is_fetched_twice (E : env) (url : string) (depth : Z)
    (search_string output_file : string) (run_time : Q) :
  (forall fuel,
      let s := session E fuel url depth search_string output_file run_time in
      NoDup (fetched (trace s)) /\
      forall u, u ∈ fetched (trace s) -> u ∈ visited_urls s)
  /\
  (forall start_time s u d rest e,
      urls_to_visit s = (u, d) :: rest ->
      u ∉ visited_urls s -> d <= depth ->
      requests_get E u = inl e ->
      exists s',
        iteration E url depth search_string start_time run_time s
        = (Ok Continue, s') /\
        u ∈ visited_urls s' /\
        urls_to_visit s' = rest /\
        fetched (trace s') = fetched (trace s) ++ [u] /\
        console (trace s') = console (trace s)
          ++ ["Error processing URL " +:+ u +:+ ": " +:+ str_exn e]).
Proof.
  split.
  - intros fuel s.
    destruct (fetch_inv_session E fuel url depth search_string output_file
                run_time) as (Hnd & Hvis & _).
    split; assumption.
  - intros start_time s u d rest e Hq Hnin Hd Hget.
    rewrite (iteration_taken E _ _ _ _ _ _ _ _ _ Hq Hnin Hd).
    unfold try_except, bind at 1.
    rewrite (process_page_error E _ _ _ _ _ _ Hget).
    eexists. split; [reflexivity|]. cbn. split_and!.
    + now apply elem_of_union_r, elem_of_singleton.
    + reflexivity.
    + unfold fetched, fetched_entries. rewrite !omap_app, !map_app. cbn.
      now rewrite !app_nil_r.
    + unfold console. rewrite !omap_app. cbn. now rewrite !app_nil_r.
Qed.

Lemma no_url_is_fetched_twice_witness :
  let E := example_env [] None no_error in
  let s := start_state "http://s/" in
  exists s',
    iteration E "http://s/" 2 "news" 0%Q 10%Q s = (Ok Continue, s') /\
    "http://s/" ∈ visited_urls s' /\
    urls_to_visit s' = [] /\
    fetched (trace s') = fetched (trace s) ++ ["http://s/"] /\
    console (trace s') = console (trace s)
      ++ ["Error processing URL http://s/: connection refused"].
Proof.
  intros E s.
  apply (proj2 (no_url_is_fetched_twice E "http://s/" 2 "news" "out.txt" 10%Q)
           0%Q s "http://s/" 0 [] (IOError "connection refused")).
  - reflexivity.
  - apply not_elem_of_empty.
  - lia.
  - reflexivity.
Defined.

(** C6: an entry whose depth is greater than [depth] is discarded when it
    is dequeued: the iteration only removes it from the queue (the visited
    set, the file and the clock are untouched, nothing is fetched and no
    link is appended); and in a whole session every entry the Fetcher was
    called for has depth at most [depth]. *)
Theorem over_depth_entries_are_never_fetched (E : env) (url : string)
    (depth : Z) (search_string output_file : string) (run_time : Q) :
  (forall start_time s u d rest,
      urls_to_visit s = (u, d) :: rest -> depth < d ->
      iteration E url depth search_string start_time run_time s
      = (Ok Continue, log (Dequeue u d) (set_frontier rest s)))
  /\
  (forall fuel,
      Forall (fun e : string * Z => snd e <= depth)
        (fetched_entries
           (trace (session E fuel url depth search_string output_file run_time)))).
Proof.
  split.
  - intros start_time s u d rest Hq Hd.
    apply (iteration_skip E _ _ _ _ _ _ _ _ _ Hq). now right.
  - intros fuel.
    now destruct (fetch_inv_session E fuel url depth search_string output_file
                    run_time) as (_ & _ & Hdep).
Qed.

Lemma over_depth_entries_are_never_fetched_witness :
  let E := example_env bfs_web None no_error in
  let s := set_frontier [("http://s/c", 3)] (start_state "http://s/") in
  iteration E "http://s/" 2 "news" 0%Q 10%Q s
  = (Ok Continue, log (Dequeue "http://s/c" 3) (set_frontier [] s)).
Proof.
  intros E s.
  apply (proj1 (over_depth_entries_are_never_fetched E "http://s/" 2 "news"
                  "out.txt" 10%Q) 0%Q s "http://s/c" 3 []).
  - reflexivity.
  - lia.
Defined.

(** C7: the queue is first-in first-out: the entries taken from it so far,
    followed by those still waiting, are the seed and the appended entries
    in the order of their discovery; pages are fetched in the order in which
    their entries are dequeued; and the depths of the dequeued entries, and
    so of the fetched pages, never decrease.  For a seed linking to A and B,
    with A linking to C, the pages are fetched in the order seed, A, B, C. *)
Theorem pages_are_processed_in_fifo_order (E : env) (fuel : nat) (url : string)
    (depth : Z) (search_string output_file : string) (run_time : Q) :
  let s := session E fuel url depth search_string output_file run_time in
  dequeued (trace s) ++ urls_to_visit s = (url, 0) :: enqueued (trace s) /\
  fetched_entries (trace s) `sublist_of` dequeued (trace s) /\
  StronglySorted Z.le (map snd (dequeued (trace s))) /\
  StronglySorted Z.le (map snd (fetched_entries (trace s))) /\
  fetched (trace (session (example_env bfs_web None no_error) 10
                          "http://s/" 2 "news" "out.txt" 100%Q))
  = ["http://s/"; "http://s/a"; "http://s/b"; "http://s/c"].
Proof.
  intros s.
  destruct (queue_inv_session E fuel url depth search_string output_file run_time)
    as (Hfifo & Hsub & Hsorted & _).
  fold s in Hfifo, Hsub, Hsorted.
  assert (Hdeq : StronglySorted Z.le (map snd (dequeued (trace s)))).
  { rewrite map_app in Hsorted. now apply StronglySorted_app in Hsorted. }
  split_and!.
  - symmetry. exact Hfifo.
  - exact Hsub.
  - exact Hdeq.
  - apply (StronglySorted_sublist _ _ (map snd (dequeued (trace s)))); [|exact Hdeq].
    now apply fmap_sublist.
  - vm_compute. reflexivity.
Qed.

(** C8: the code at a text whose only whitespace is a tab.  Line 86
    compares with the space character alone, so the tab at index 50 is not
    taken as a break point: the first line is cut at 80, inside the second
    word (and the character at the cut is lost, as in C2). *)
Theorem only_the_space_character_breaks_a_line :
  let E := example_env [] None no_error in
  let tab := String "009"%char EmptyString in
  chunks (snd (write_with_line_breaks E
                 (copies 50 "a" +:+ tab +:+ copies 50 "b") 80 empty_file))
  = [copies 50 "a" +:+ tab +:+ copies 29 "b" +:+ nl; copies 20 "b" +:+ nl]
  /\
  chunks (snd (write_with_line_breaks E
                 (copies 50 "a" +:+ " " +:+ copies 50 "b") 80 empty_file))
  = [copies 50 "a" +:+ nl; copies 50 "b" +:+ nl].
Proof. split; vm_compute; reflexivity. Qed.

(** C9, as amended: for every non-empty text whose length is at most
    [max_line_length] the wrapper makes exactly one call of [write], with the
    text followed by a newline; for the empty text it writes nothing. *)
Theorem short_text_is_written_as_one_line (E : env) (text : string)
    (max_line_length : nat) (f : file) :
  ((0 < String.length text <= max_line_length)%nat ->
   write_with_line_breaks E text max_line_length f
   = file_write E (text +:+ nl) f)
  /\ write_with_line_breaks E EmptyString max_line_length f = (Ok tt, f).
Proof.
  split; [intros [Hpos Hle]|reflexivity].
  unfold write_with_line_breaks.
  destruct (String.length text) as [|n] eqn:Hlen; [lia|].
  cbn [wrap_loop]. rewrite Hlen.
  destruct (Nat.ltb_spec 0 (S n)); [|lia].
  rewrite line_end_last by lia. unfold slice.
  rewrite Hlen, Nat.sub_0_r, <- Hlen, substring_whole.
  unfold bind.
  destruct (file_write E (text +:+ nl) f) as [[[]|e|] f'] eqn:Hw; try reflexivity.
  apply wrap_loop_done. lia.
Qed.

Lemma short_text_is_written_as_one_line_witness :
  let E := example_env [] None no_error in
  write_with_line_breaks E "abc def" 80 empty_file
  = file_write E ("abc def" +:+ nl) empty_file.
Proof.
  intros E.
  apply (proj1 (short_text_is_written_as_one_line E "abc def" 80 empty_file)).
  cbn. lia.
Defined.

(** C9 as stated fails for the empty text: no line at all is written. *)
Lemma empty_text_writes_no_line :
  let E := example_env [] None no_error in
  (String.length EmptyString <= 80)%nat /\
  chunks (snd (write_with_line_breaks E EmptyString 80 empty_file)) = [] /\
  chunks (snd (write_with_line_breaks E EmptyString 80 empty_file)) <> [EmptyString +:+ nl].
Proof. cbn. split_and!; [lia|reflexivity|discriminate]. Qed.

(** C10, as amended: with a negative [depth], a file that opens, three
    header writes that succeed and a file that is closed without error at
    the end of the [with] block, the session ends normally after one
    iteration: the seed is dequeued and discarded, nothing is fetched,
    nothing is printed, and the file has been handed the three header lines
    and nothing else. *)
Theorem negative_depth_session_writes_only_the_header (E : env) (fuel : nat)
    (url : string) (depth : Z) (search_string output_file : string)
    (run_time : Q) :
  depth < 0 ->
  open_w E output_file = None ->
  write_error E 0 = None -> write_error E 1 = None -> write_error E 2 = None ->
  close_error E = None ->
  let s := session E (S fuel) url depth search_string output_file run_time in
  session_outcome E (S fuel) url depth search_string output_file run_time = Ok tt /\
  fetched (trace s) = [] /\
  trace s = [Dequeue url 0] /\
  urls_to_visit s = [] /\
  chunks (out_file s) = header_lines url depth search_string.
Proof.
  intros Hneg Hopen H0 H1 H2 Hclose.
  assert (Hhdr : header_error E output_file = None).
  { unfold header_error, header_write_error. now rewrite Hopen, H0, H1, H2. }
  assert (Hrun :
    scrape_articles E (S fuel) url depth search_string output_file run_time
                    initial_state
    = (Ok tt,
       log (Dequeue url 0)
           (set_frontier []
              (set_file {| chunks := header_lines url depth search_string;
                           write_calls := 3 |} (start_state url))))).
  { rewrite (scrape_articles_header_ok E _ _ _ _ _ _ Hhdr).
    cbn [while_urls_to_visit]. simpl_state. unfold start_state at 1. simpl_state.
    unfold bind.
    rewrite (iteration_skip E _ _ _ _ _ _ url 0 []); [|reflexivity|right; lia].
    rewrite while_empty by reflexivity. unfold closing. now rewrite Hclose. }
  unfold session, session_outcome. rewrite Hrun.
  split_and!; reflexivity.
Qed.

Lemma negative_depth_session_writes_only_the_header_witness :
  let E := example_env bfs_web None no_error in
  let s := session E 1 "http://s/" (-1) "news" "out.txt" 100%Q in
  session_outcome E 1 "http://s/" (-1) "news" "out.txt" 100%Q = Ok tt /\
  fetched (trace s) = [] /\
  trace s = [Dequeue "http://s/" 0] /\
  urls_to_visit s = [] /\
  chunks (out_file s) = header_lines "http://s/" (-1) "news".
Proof.
  intros E.
  apply (negative_depth_session_writes_only_the_header E 0 "http://s/" (-1)
           "news" "out.txt" 100%Q); [lia|reflexivity..].
Defined.

(** C10 as stated fails when the file opens and the device is full.  A
    search term longer than the buffer of the file makes the first header
    write raise: nothing is handed to the file, which is left without its
    header.  With a short search term the three writes return and the
    closing of the file raises: the handler of line 136 prints its line
    after the seed was discarded. *)
Lemma negative_depth_header_write_may_fail :
  let no_space := IOError "[Errno 28] No space left on device" in
  let E := example_env bfs_web None (fails_at 0 no_space) in
  let s := session E 5 "http://s/" (-1) (copies (90 * 100) "a") "/dev/full" 100%Q in
  let E' := with_close_error no_space (example_env bfs_web None no_error) in
  let s' := session E' 5 "http://s/" (-1) "news" "/dev/full" 100%Q in
  (-1 < 0) /\
  (open_w E "/dev/full" = None /\
   chunks (out_file s) = [] /\
   chunks (out_file s) <> header_lines "http://s/" (-1) (copies (90 * 100) "a") /\
   console (trace s) = [outer_message "/dev/full" no_space]) /\
  (open_w E' "/dev/full" = None /\
   trace s' = [Dequeue "http://s/" 0;
               Print (outer_message "/dev/full" no_space)] /\
   trace s' <> [Dequeue "http://s/" 0]) /\
  outer_message "/dev/full" no_space
  = "Error opening or writing to output file /dev/full: [Errno 28] No space left on device".
Proof.
  vm_compute. split_and!; try reflexivity; try discriminate.
Qed.

(** ** Further properties *)

(** *** Strings *)

Lemma length_substring (s : string) (n m : nat) :
  (n + m <= String.length s)%nat -> String.length (String.substring n m s) = m.
Proof.
  revert n m. induction s as [|c s IH]; intros n m H; cbn in *.
  - destruct n, m; cbn; lia.
  - destruct n as [|n]; [destruct m as [|m]; cbn; [reflexivity|]|].
    + rewrite IH by lia. reflexivity.
    + apply IH. lia.
Qed.

Lemma substring_nil (s : string) (n : nat) : String.substring n 0 s = EmptyString.
Proof.
  revert n. induction s as [|c s IH]; intros [|n]; cbn; auto.
Qed.

Lemma substring_beyond (s : string) (n m : nat) :
  (String.length s <= n)%nat -> String.substring n m s = EmptyString.
Proof.
  revert n m. induction s as [|c s IH]; intros n m H; cbn in *.
  - destruct n, m; reflexivity.
  - destruct n as [|n]; [lia|]. apply IH. lia.
Qed.

Lemma append_cons (c : ascii) (a b : string) :
  String c a +:+ b = String c (a +:+ b).
Proof. reflexivity. Qed.

Lemma substring_app (s : string) (n m k : nat) :
  (n + m <= String.length s)%nat ->
  String.substring n m s +:+ String.substring (n + m) k s
  = String.substring n (m + k) s.
Proof.
  revert n m. induction s as [|c s IH]; intros n m H; cbn in *.
  - assert (n = O) by lia. assert (m = O) by lia. subst. cbn.
    destruct k; reflexivity.
  - destruct n as [|n].
    + destruct m as [|m]; cbn.
      * destruct k; reflexivity.
      * rewrite append_cons. f_equal. apply (IH O m). lia.
    + cbn. apply IH. lia.
Qed.

Lemma append_assoc (a b c : string) : (a +:+ b) +:+ c = a +:+ (b +:+ c).
Proof.
  induction a as [|x a IH]; [reflexivity|]. rewrite !append_cons. now rewrite IH.
Qed.

Lemma append_nil_r (a : string) : a +:+ EmptyString = a.
Proof.
  induction a as [|x a IH]; [reflexivity|]. rewrite append_cons. now rewrite IH.
Qed.

(** *** The wrapper, line by line *)

Lemma line_end_le text max_line_length start :
  (start < String.length text)%nat ->
  (line_end text max_line_length start <= start + max_line_length)%nat /\
  (line_end text max_line_length start <= String.length text)%nat.
Proof.
  intros Hlt. unfold line_end.
  destruct (Nat.ltb_spec (start + max_line_length) (String.length text)); [|lia].
  pose proof (scan_back_bounds text start max_line_length).
  destruct (Nat.eqb_spec (scan_back text start max_line_length) start); lia.
Qed.

Lemma not_space_at_false text i :
  not_space_at text i = false <-> String.get i text = Some " "%char.
Proof.
  unfold not_space_at. destruct (String.get i text) as [c|].
  - rewrite negb_false_iff, Ascii.eqb_eq. split; congruence.
  - split; discriminate.
Qed.

(** What the loop writes, whatever the file does: the lines in order, up to
    the first write that raises. *)
Lemma wrap_loop_prefix (E : env) fuel text max_line_length start f :
  (String.length text - start <= fuel)%nat ->
  let lines := map (fun line => line +:+ nl)
                   (wrapped_lines fuel text max_line_length start) in
  exists k r f',
    wrap_loop E fuel text max_line_length start f = (r, f') /\
    chunks f' = chunks f ++ take k lines /\
    (forall j, (j < k)%nat -> write_error E (write_calls f + j) = None) /\
    match r with
    | Ok _ => k = length lines /\ write_calls f' = (write_calls f + k)%nat
    | Raise e => (k < length lines)%nat /\
                 write_error E (write_calls f + k) = Some e
    | OutOfFuel => False
    end.
Proof.
  revert start f. induction fuel as [|fuel IH]; intros start f Hfuel;
    cbn [wrap_loop wrapped_lines].
  - destruct (Nat.ltb_spec start (String.length text)); [lia|].
    exists O, (Ok tt), f. cbn. rewrite app_nil_r.
    split_and!; auto. intros j Hj. lia.
  - destruct (Nat.ltb_spec start (String.length text)) as [Hlt|].
    2:{ exists O, (Ok tt), f. cbn. rewrite app_nil_r.
        split_and!; auto. intros j Hj. lia. }
    set (end_ := line_end text max_line_length start).
    unfold bind, file_write.
    destruct (write_error E (write_calls f)) as [e|] eqn:Hw.
    + exists O. eexists _, _. split; [reflexivity|]. cbn.
      rewrite app_nil_r, Nat.add_0_r. split_and!; auto; [|lia].
      intros j Hj. lia.
    + pose proof (line_end_ge text max_line_length start Hlt).
      edestruct (IH (end_ + 1)%nat) as (k & r & f' & -> & Hch & Hok & Hr);
        [subst end_; lia|].
      cbn [chunks write_calls] in Hch, Hok, Hr.
      exists (S k), r, f'. split; [reflexivity|]. cbn [map take].
      split_and!.
      * rewrite Hch, <- app_assoc. reflexivity.
      * intros [|j] Hj; [now rewrite Nat.add_0_r|].
        replace (write_calls f + S j)%nat with (S (write_calls f) + j)%nat by lia.
        apply Hok. lia.
      * replace (write_calls f + S k)%nat with (S (write_calls f) + k)%nat by lia.
        destruct r as [[]|e|]; cbn [length]; [| |exact Hr].
        -- destruct Hr as [-> ->]. split; reflexivity.
        -- destruct Hr as [Hk He]. split; [lia|exact He].
Qed.

Lemma wrapped_lines_width fuel text max_line_length start :
  Forall (fun line => (String.length line <= max_line_length)%nat)
         (wrapped_lines fuel text max_line_length start).
Proof.
  revert start. induction fuel as [|fuel IH]; intros start; cbn [wrapped_lines];
    destruct (Nat.ltb_spec start (String.length text)) as [Hlt|];
    try constructor; [|apply IH].
  destruct (line_end_le text max_line_length start Hlt) as [H1 H2].
  pose proof (line_end_ge text max_line_length start Hlt).
  unfold slice. rewrite length_substring; lia.
Qed.

(** Putting back the character after each line gives the rest of the text. *)
Lemma put_back_wrapped_lines fuel text max_line_length start :
  (String.length text - start <= fuel)%nat ->
  (start <= String.length text)%nat ->
  put_back text start (wrapped_lines fuel text max_line_length start)
  = String.substring start (String.length text - start) text.
Proof.
  revert start. induction fuel as [|fuel IH]; intros start Hfuel Hle;
    cbn [wrapped_lines].
  - destruct (Nat.ltb_spec start (String.length text)); [lia|].
    cbn. replace (String.length text - start)%nat with O by lia.
    now rewrite substring_nil.
  - destruct (Nat.ltb_spec start (String.length text)) as [Hlt|].
    2:{ cbn. replace (String.length text - start)%nat with O by lia.
        now rewrite substring_nil. }
    set (end_ := line_end text max_line_length start).
    destruct (line_end_le text max_line_length start Hlt) as [_ Hend].
    pose proof (line_end_ge text max_line_length start Hlt) as Hge.
    fold end_ in Hend, Hge.
    cbn [put_back]. unfold slice.
    rewrite length_substring by lia.
    replace (start + (end_ - start))%nat with end_ by lia.
    destruct (Nat.eq_dec end_ (String.length text)) as [Heq|Hne].
    + rewrite (substring_beyond text end_ 1) by lia.
      assert (Hnil : wrapped_lines fuel text max_line_length (end_ + 1) = []).
      { destruct fuel; cbn [wrapped_lines];
          destruct (Nat.ltb_spec (end_ + 1) (String.length text)); try lia;
          reflexivity. }
      rewrite Hnil. cbn [put_back]. rewrite Heq.
      cbn. now rewrite append_nil_r.
    + rewrite IH by lia.
      replace (String.length text - start)%nat
        with ((end_ - start) + (1 + (String.length text - (end_ + 1))))%nat
        by lia.
      rewrite <- (substring_app text start (end_ - start)) by lia.
      replace (start + (end_ - start))%nat with end_ by lia.
      rewrite <- (substring_app text end_ 1 (String.length text - (end_ + 1)))
        by lia.
      reflexivity.
Qed.

Lemma scan_back_reaches_space text start k i :
  not_space_at text i = false -> (start < i <= start + k)%nat ->
  (i <= scan_back text start k)%nat.
Proof.
  intros Hsp. induction k as [|k IH]; intros Hi; cbn [scan_back]; [lia|].
  destruct (not_space_at text (start + S k)) eqn:Hc; [|lia].
  apply IH. destruct (Nat.eq_dec i (start + S k)%nat) as [->|]; [congruence|lia].
Qed.

(** X1: every line the wrapper writes, to any file and whether or not a
    write fails, has at most [max_line_length] characters and is followed by
    one newline. *)
Theorem wrapper_writes_lines_within_the_width (E : env) (text : string)
    (max_line_length : nat) (f : file) :
  exists new,
    chunks (snd (write_with_line_breaks E text max_line_length f))
    = chunks f ++ new /\
    Forall (wrapped_line max_line_length) new.
Proof.
  destruct (wrap_loop_prefix E (String.length text) text max_line_length 0 f)
    as (k & r & f' & Hrun & Hch & _); [lia|].
  unfold write_with_line_breaks. rewrite Hrun. cbn [snd].
  eexists. split; [exact Hch|].
  apply Forall_take, Forall_map.
  eapply Forall_impl; [apply wrapped_lines_width|].
  intros line Hline. exists line. split; [reflexivity|exact Hline].
Qed.

(** X2: the wrapper stops at the first write that raises: the file receives
    the lines of the text in order up to that write, the exception of that
    write is the one the wrapper raises, and when no write raises all the
    lines are written. *)
Theorem wrapper_stops_at_the_first_failed_write (E : env) (text : string)
    (max_line_length : nat) (f : file) :
  let run := write_with_line_breaks E text max_line_length f in
  exists k,
    chunks (snd run) = chunks f ++ take k (lines_written text max_line_length) /\
    (forall j, (j < k)%nat -> write_error E (write_calls f + j) = None) /\
    match fst run with
    | Ok _ => k = length (lines_written text max_line_length)
    | Raise e => (k < length (lines_written text max_line_length))%nat /\
                 write_error E (write_calls f + k) = Some e
    | OutOfFuel => False
    end.
Proof.
  destruct (wrap_loop_prefix E (String.length text) text max_line_length 0 f)
    as (k & r & f' & Hrun & Hch & Hok & Hr); [lia|].
  unfold write_with_line_breaks. cbn zeta. rewrite Hrun. cbn [fst snd].
  exists k. split_and!; [exact Hch|exact Hok|].
  destruct r as [[]|e|]; [apply Hr|exact Hr|exact Hr].
Qed.

(** X3: when the wrapper returns normally, the lines it wrote, each one
    followed by the character of the text that comes after it, give back the
    text: exactly one character is left out between two lines (and at most
    one after the last), and nothing else is lost or reordered. *)
Theorem wrapper_leaves_out_one_character_per_line (E : env) (text : string)
    (max_line_length : nat) (f : file) :
  fst (write_with_line_breaks E text max_line_length f) = Ok tt ->
  exists lines,
    chunks (snd (write_with_line_breaks E text max_line_length f))
    = chunks f ++ map (fun line => line +:+ nl) lines /\
    put_back text 0 lines = text.
Proof.
  destruct (wrap_loop_prefix E (String.length text) text max_line_length 0 f)
    as (k & r & f' & Hrun & Hch & _ & Hr); [lia|].
  unfold write_with_line_breaks. rewrite Hrun. cbn [fst snd]. intros ->.
  destruct Hr as [-> _]. rewrite firstn_all in Hch.
  eexists. split; [exact Hch|].
  rewrite put_back_wrapped_lines by lia.
  rewrite Nat.sub_0_r. apply substring_whole.
Qed.

Lemma wrapper_leaves_out_one_character_per_line_witness :
  let E := example_env [] None no_error in
  exists lines,
    chunks (snd (write_with_line_breaks E "ab cd efghij kl" 6 empty_file))
    = chunks empty_file ++ map (fun line => line +:+ nl) lines /\
    put_back "ab cd efghij kl" 0 lines = "ab cd efghij kl".
Proof.
  intros E.
  apply (wrapper_leaves_out_one_character_per_line E "ab cd efghij kl" 6
           empty_file).
  reflexivity.
Defined.

(** X4: when the tentative end [start + max_line_length] is inside the
    text, the line is broken at the last space character among the
    positions [start + 1 .. start + max_line_length], if there is one; with
    no space there, it is cut at [start + max_line_length]. *)
Theorem line_is_broken_at_the_last_space (text : string)
    (max_line_length start : nat) :
  (start + max_line_length < String.length text)%nat ->
  let end_ := line_end text max_line_length start in
  (forall i, (start < i <= start + max_line_length)%nat ->
             String.get i text = Some " "%char ->
             (i <= end_ <= start + max_line_length)%nat /\
             String.get end_ text = Some " "%char /\
             forall j, (end_ < j <= start + max_line_length)%nat ->
                       String.get j text <> Some " "%char)
  /\
  ((forall i, (start < i <= start + max_line_length)%nat ->
              String.get i text <> Some " "%char) ->
   end_ = (start + max_line_length)%nat).
Proof.
  intros Hlt end_. split.
  - intros i Hi Hsp. apply not_space_at_false in Hsp.
    pose proof (scan_back_reaches_space text start max_line_length i Hsp Hi)
      as Hreach.
    pose proof (scan_back_bounds text start max_line_length) as Hb.
    assert (Hfound : scan_back text start max_line_length <> start) by lia.
    destruct (scan_back_stops_at_space text start max_line_length Hfound)
      as [Hend Hafter].
    assert (Hend_ : end_ = scan_back text start max_line_length).
    { subst end_. unfold line_end.
      destruct (Nat.ltb_spec (start + max_line_length) (String.length text));
        [|lia].
      destruct (Nat.eqb_spec (scan_back text start max_line_length) start);
        [contradiction|reflexivity]. }
    rewrite Hend_. split_and!; [lia|lia|now apply not_space_at_false|].
    intros j Hj Hspj. apply not_space_at_false in Hspj.
    rewrite (Hafter j Hj) in Hspj. discriminate.
  - intros Hno. apply line_end_forced_cut; [exact Hlt|].
    intros i Hi. destruct (not_space_at text i) eqn:Hc; [reflexivity|].
    apply not_space_at_false in Hc. now destruct (Hno i Hi).
Qed.

Lemma line_is_broken_at_the_last_space_witness :
  let text := "ab cd efghij kl" in
  let end_ := line_end text 6 0 in
  ((2 <= end_ <= 0 + 6)%nat /\
   String.get end_ text = Some " "%char /\
   forall j, (end_ < j <= 0 + 6)%nat -> String.get j text <> Some " "%char)
  /\ line_end text 3 6 = (6 + 3)%nat.
Proof.
  intros text end_. split.
  - apply (proj1 (line_is_broken_at_the_last_space text 6 0 ltac:(cbn; lia)) 2%nat);
      [lia|reflexivity].
  - apply (proj2 (line_is_broken_at_the_last_space text 3 6 ltac:(cbn; lia))).
    intros i Hi.
    assert (Hcases : i = 7%nat \/ i = 8%nat \/ i = 9%nat) by lia.
    destruct Hcases as [->|[->| ->]]; discriminate.
Defined.

(** *** The loop body, in full *)

(** What an iteration that takes its entry does, case by case. *)
Lemma iteration_effects (E : env) url depth search_string start_time run_time
    s u d rest :
  urls_to_visit s = (u, d) :: rest ->
  u ∉ visited_urls s -> d <= depth ->
  let it := iteration E url depth search_string start_time run_time s in
  let failed e :=
    Print ("Error processing URL " +:+ u +:+ ": " +:+ str_exn e) in
  let s0 := log (Fetch u d) (taken u d rest s) in
  match requests_get E u with
  | inl e => it = (Ok Continue, log (failed e) s0)
  | inr pg =>
      let s2 := add_entries (links_of E url (anchors pg) d) s0 in
      match links_error E url (anchors pg) d with
      | Some e => it = (Ok Continue, log (failed e) s2)
      | None =>
          if str_in (str_lower E search_string) (str_lower E (text pg)) then
            let found := Print ("Found article: " +:+
                                match title pg with
                                | Some t => t
                                | None => "No title found"
                                end) in
            match write_with_line_breaks E (text pg) 80 (out_file s) with
            | (Ok _, f) =>
                it = deadline_check E start_time run_time
                                    (set_file f (log found s2))
            | (Raise e, f) =>
                it = (Ok Continue, log (failed e) (set_file f (log found s2)))
            | (OutOfFuel, _) => False
            end
          else it = deadline_check E start_time run_time s2
      end
  end.
Proof.
  intros Hq Hnin Hd it failed s0. subst it.
  pose proof (iteration_taken E url depth search_string start_time run_time
                s u d rest Hq Hnin Hd) as Hit.
  unfold try_except, bind at 1 in Hit.
  destruct (requests_get E u) as [e|pg] eqn:Hget.
  - rewrite (process_page_error E _ _ _ _ _ _ Hget) in Hit. exact Hit.
  - rewrite (process_page_soup E _ _ _ _ _ _ Hget) in Hit. fold s0 in Hit.
    cbn zeta in *.
    destruct (links_error E url (anchors pg) d) as [e|]; [exact Hit|].
    unfold report_match in Hit.
    destruct (str_in (str_lower E search_string) (str_lower E (text pg))).
    + rewrite Hit. clear Hit. unfold bind, print, modify, on_file.
      change (out_file (log _ (add_entries _ s0))) with (out_file s).
      pose proof (write_with_line_breaks_returns E (text pg) 80 (out_file s))
        as Hret.
      destruct (write_with_line_breaks E (text pg) 80 (out_file s))
        as [[[]|e|] f]; cbn in Hret; [| |congruence].
      * rewrite deadline_check_spec. now destruct (expired _ _).
      * reflexivity.
    + rewrite Hit. unfold ret. rewrite deadline_check_spec.
      now destruct (expired _ _).
Qed.

(** The loop ends by exhausting the queue or by a [break]: a property [P]
    that every iteration that continues keeps, and a property [Q] that holds
    after a [break] and also of the states where [P] holds with an empty
    queue, give [Q] when the loop ends normally. *)
Lemma while_rule (E : env) (P Q : state -> Prop) url depth search_string
    start_time run_time :
  (forall s c s', urls_to_visit s <> [] -> P s ->
     iteration E url depth search_string start_time run_time s = (Ok c, s') ->
     match c with Continue => P s' | Break => Q s' end) ->
  forall fuel s, P s ->
    let run := while_urls_to_visit E fuel url depth search_string start_time
                                   run_time s in
    P (snd run) \/ Q (snd run).
Proof.
  intros Hstep fuel. induction fuel as [|fuel IH]; intros s Hs; cbn.
  - destruct (urls_to_visit s); left; exact Hs.
  - destruct (urls_to_visit s) as [|[u d] rest] eqn:Hq; [left; exact Hs|].
    destruct (iteration_cases E url depth search_string start_time run_time
                s u d rest Hq) as (c & s' & Hit & _).
    unfold bind. rewrite Hit.
    assert (Hne : urls_to_visit s <> []) by congruence.
    specialize (Hstep s c s' Hne Hs Hit).
    destruct c; [apply IH; exact Hstep|right; exact Hstep].
Qed.

(** A session whose header is written is the loop run after it, and then
    the line of the handler of line 136 when the closing of the file raises. *)
Lemma session_after_header (E : env) fuel url depth search_string output_file
    run_time :
  header_error E output_file = None ->
  let s' := snd (while_urls_to_visit E fuel url depth search_string
                   (time_time E 0) run_time
                   (set_file {| chunks := header_lines url depth search_string;
                                write_calls := 3 |} (start_state url))) in
  session E fuel url depth search_string output_file run_time = s' \/
  exists e, close_error E = Some e /\
    session E fuel url depth search_string output_file run_time
    = log (Print (outer_message output_file e)) s'.
Proof.
  intros Hhdr. unfold session.
  rewrite (scrape_articles_header_ok E _ _ _ _ _ _ Hhdr).
  destruct (while_urls_to_visit E fuel url depth search_string (time_time E 0)
              run_time _) as [[[]|e|] s0]; cbn [snd]; auto.
  unfold closing. destruct (close_error E) as [e|]; eauto.
Qed.

(** A session whose header fails prints one line and stops. *)
Lemma session_header_failed (E : env) fuel url depth search_string output_file
    run_time e :
  header_error E output_file = Some e ->
  exists f,
    session E fuel url depth search_string output_file run_time
    = log (Print (outer_message output_file e)) (set_file f (start_state url)).
Proof.
  intros Hhdr. unfold session.
  destruct (scrape_articles_header_failed E fuel url depth search_string
              output_file run_time e Hhdr) as (k & f & _ & _ & ->).
  now exists f.
Qed.

(** *** Invariants of the visited set and of the depths *)

Lemma visited_inv_session (E : env) fuel url depth search_string output_file
    run_time :
  visited_inv (session E fuel url depth search_string output_file run_time).
Proof.
  apply session_preserves.
  - intros s f Hs. exact Hs.
  - intros s line Hs. unfold visited_inv in *. cbn [visited_urls trace log].
    rewrite fetched_app. cbn. now rewrite app_nil_r.
  - intros s c s' Hne Hs Hit. unfold visited_inv in *.
    destruct (urls_to_visit s) as [|[u d] rest] eqn:Hq; [congruence|].
    destruct (iteration_cases E url depth search_string (time_time E 0) run_time
                s u d rest Hq) as (c0 & s0 & Hit0 & Hcases).
    rewrite Hit in Hit0. injection Hit0 as <- <-.
    destruct Hcases as [(_ & _ & ->)
                       |(_ & _ & Hv & new & tail & _ & _ & _ & Htr & Hquiet)].
    + cbn [visited_urls trace log set_frontier]. rewrite fetched_app. cbn.
      now rewrite app_nil_r.
    + unfold fetched. rewrite Hv, Htr, (taken_fetched_entries _ _ _ _ _ Hquiet).
      rewrite map_app, list_to_set_app_L, Hs. unfold fetched. cbn [map fst].
      now rewrite list_to_set_singleton_L.
  - reflexivity.
Qed.

Lemma depth_inv_session (E : env) fuel url depth search_string output_file
    run_time :
  depth_inv depth (session E fuel url depth search_string output_file run_time).
Proof.
  apply session_preserves.
  - intros s f Hs. exact Hs.
  - intros s line [Hq He]. split; [exact Hq|].
    cbn [trace log]. rewrite enqueued_app. cbn. now rewrite app_nil_r.
  - intros s c s' Hne [Hfr Hen] Hit.
    destruct (urls_to_visit s) as [|[u d] rest] eqn:Hq; [congruence|].
    apply Forall_cons in Hfr as [Hd0 Hrest]. cbn in Hd0.
    destruct (iteration_cases E url depth search_string (time_time E 0) run_time
                s u d rest Hq) as (c0 & s0 & Hit0 & Hcases).
    rewrite Hit in Hit0. injection Hit0 as <- <-.
    destruct Hcases as [(_ & _ & ->)
                       |(_ & Hd & _ & new & tail & _ & Hf & Hnew & Htr & Hquiet)].
    + split; [exact Hrest|].
      cbn [trace log set_frontier]. rewrite enqueued_app. cbn.
      now rewrite app_nil_r.
    + split.
      * rewrite Hf. apply Forall_app. split; [exact Hrest|].
        eapply Forall_impl; [exact Hnew|]. intros e He'. cbn in He'. lia.
      * rewrite Htr, (taken_enqueued _ _ _ _ _ Hquiet).
        apply Forall_app. split; [exact Hen|].
        eapply Forall_impl; [exact Hnew|]. intros e He'. cbn in He'. lia.
  - split; cbn; repeat constructor. cbn. lia.
Qed.

Lemma sublist_of_cons_excluded {A} (a : A) (l m : list A) :
  l `sublist_of` a :: m -> (forall x, x ∈ l -> x ∉ m) -> l `sublist_of` [a].
Proof.
  intros Hsub Hex.
  assert (Hnil : forall k, k `sublist_of` m -> (forall x, x ∈ k -> x ∉ m) -> k = []).
  { intros [|x k] Hk Hx; [reflexivity|].
    exfalso. apply (Hx x); [left|]. eapply elem_of_sublist; [left|exact Hk]. }
  apply sublist_cons_r in Hsub as [Hsub|(l' & -> & Hsub)].
  - rewrite (Hnil l Hsub Hex). apply sublist_nil_l.
  - rewrite (Hnil l' Hsub); [reflexivity|].
    intros x Hx. apply Hex. now right.
Qed.

(** X5: at every point of a session, the visited set is exactly the set of
    the URLs the Fetcher has been called for: a URL is marked visited when,
    and only when, the loop goes on to fetch it. *)
Theorem visited_urls_are_the_fetched_urls (E : env) (fuel : nat) (url : string)
    (depth : Z) (search_string output_file : string) (run_time : Q) :
  let s := session E fuel url depth search_string output_file run_time in
  visited_urls s = list_to_set (fetched (trace s)) /\
  forall u, u ∈ visited_urls s <-> u ∈ fetched (trace s).
Proof.
  intros s.
  pose proof (visited_inv_session E fuel url depth search_string output_file
                run_time) as Hinv.
  unfold visited_inv in Hinv. fold s in Hinv. split; [exact Hinv|].
  intros u. rewrite Hinv. apply elem_of_list_to_set.
Qed.

(** X6: every entry appended to the queue has a depth from 1 to [depth + 1]:
    links are appended one level below a page that was fetched, and only
    pages of depth at most [depth] are fetched.  So with a negative [depth]
    nothing is ever appended. *)
Theorem appended_entries_are_one_level_below_a_fetched_page (E : env)
    (fuel : nat) (url : string) (depth : Z)
    (search_string output_file : string) (run_time : Q) :
  let s := session E fuel url depth search_string output_file run_time in
  Forall (fun e : string * Z => 1 <= snd e <= depth + 1) (enqueued (trace s)) /\
  (depth < 0 -> enqueued (trace s) = []).
Proof.
  intros s.
  destruct (depth_inv_session E fuel url depth search_string output_file run_time)
    as [_ Hen].
  fold s in Hen. split; [exact Hen|].
  intros Hneg. destruct (enqueued (trace s)) as [|e l]; [reflexivity|].
  apply Forall_cons in Hen as [He _]. lia.
Qed.

Lemma appended_entries_are_one_level_below_a_fetched_page_witness :
  enqueued (trace (session (example_env bfs_web None no_error) 10 "http://s/"
                           (-1) "news" "out.txt" 100%Q))
  = [].
Proof.
  apply (proj2 (appended_entries_are_one_level_below_a_fetched_page
                  (example_env bfs_web None no_error) 10 "http://s/" (-1)
                  "news" "out.txt" 100%Q)).
  lia.
Defined.

(** X7: with [depth] 0 (or less) no page but the start page is fetched, and
    that one at most once: the entries fetched are a sublist of the seed
    entry alone. *)
Theorem depth_zero_fetches_only_the_start_page (E : env) (fuel : nat)
    (url : string) (depth : Z) (search_string output_file : string)
    (run_time : Q) :
  depth <= 0 ->
  fetched_entries
    (trace (session E fuel url depth search_string output_file run_time))
  `sublist_of` [(url, 0)].
Proof.
  intros Hdepth.
  set (s := session E fuel url depth search_string output_file run_time).
  destruct (queue_inv_session E fuel url depth search_string output_file run_time)
    as (Hfifo & Hsub & _).
  destruct (fetch_inv_session E fuel url depth search_string output_file run_time)
    as (_ & _ & Hdep).
  destruct (depth_inv_session E fuel url depth search_string output_file run_time)
    as [_ Hen].
  fold s in Hfifo, Hsub, Hdep, Hen.
  apply (sublist_of_cons_excluded _ _ (enqueued (trace s))).
  - rewrite Hfifo. etransitivity; [exact Hsub|]. now apply sublist_inserts_r.
  - intros x Hx Hx'. rewrite Forall_forall in Hdep, Hen.
    specialize (Hdep x Hx). specialize (Hen x Hx'). cbn in Hdep. lia.
Qed.

Lemma depth_zero_fetches_only_the_start_page_witness :
  fetched_entries
    (trace (session (example_env bfs_web None no_error) 10 "http://s/" 0
                    "news" "out.txt" 100%Q))
  `sublist_of` [("http://s/", 0)].
Proof.
  apply (depth_zero_fetches_only_the_start_page
           (example_env bfs_web None no_error) 10 "http://s/" 0 "news"
           "out.txt" 100%Q).
  lia.
Defined.

(** *** The file and the console during the loop *)

Lemma write_with_line_breaks_adds_lines (E : env) text max_line_length f :
  exists new,
    chunks (snd (write_with_line_breaks E text max_line_length f))
    = chunks f ++ new /\
    Forall (wrapped_line max_line_length) new.
Proof.
  destruct (wrap_loop_prefix E (String.length text) text max_line_length 0 f)
    as (k & r & f' & Hrun & Hch & _); [lia|].
  unfold write_with_line_breaks. rewrite Hrun. cbn [snd].
  eexists. split; [exact Hch|].
  apply Forall_take, Forall_map.
  eapply Forall_impl; [apply wrapped_lines_width|].
  intros line Hline. exists line. split; [reflexivity|exact Hline].
Qed.

(** An iteration adds to the file only wrapped lines, and only for a page
    that was fetched and matches. *)
Lemma iteration_file (E : env) url depth search_string start_time run_time
    s c s' :
  urls_to_visit s <> [] ->
  iteration E url depth search_string start_time run_time s = (Ok c, s') ->
  exists new,
    chunks (out_file s') = chunks (out_file s) ++ new /\
    Forall (wrapped_line 80) new /\
    (new <> [] ->
     exists u pg, requests_get E u = inr pg /\
                  str_in (str_lower E search_string) (str_lower E (text pg)) = true).
Proof.
  intros Hne Hit.
  assert (Hsame : forall s1, out_file s1 = out_file s ->
            exists new, chunks (out_file s1) = chunks (out_file s) ++ new /\
              Forall (wrapped_line 80) new /\
              (new <> [] ->
               exists u pg, requests_get E u = inr pg /\
                 str_in (str_lower E search_string) (str_lower E (text pg)) = true)).
  { intros s1 ->. exists []. rewrite app_nil_r. split_and!; auto. congruence. }
  destruct (urls_to_visit s) as [|[u d] rest] eqn:Hq; [congruence|].
  destruct (decide (u ∈ visited_urls s)) as [Hin|Hnin].
  { rewrite (iteration_skip E _ _ _ _ _ _ _ _ _ Hq (or_introl Hin)) in Hit.
    injection Hit as _ <-. now apply Hsame. }
  destruct (Z.lt_ge_cases depth d) as [Hd|Hd].
  { rewrite (iteration_skip E _ _ _ _ _ _ _ _ _ Hq (or_intror Hd)) in Hit.
    injection Hit as _ <-. now apply Hsame. }
  pose proof (iteration_effects E url depth search_string start_time run_time
                s u d rest Hq Hnin Hd) as Heff.
  cbn zeta in Heff. rewrite Hit in Heff.
  destruct (requests_get E u) as [e|pg] eqn:Hget.
  { injection Heff as _ ->. now apply Hsame. }
  destruct (links_error E url (anchors pg) d) as [e|].
  { injection Heff as _ ->. now apply Hsame. }
  destruct (str_in (str_lower E search_string) (str_lower E (text pg))) eqn:Hmatch.
  - destruct (write_with_line_breaks_adds_lines E (text pg) 80 (out_file s))
      as (new & Hch & Hnew).
    destruct (write_with_line_breaks E (text pg) 80 (out_file s))
      as [[[]|e|] f]; [| |contradiction]; cbn [snd] in Hch.
    + rewrite deadline_check_spec in Heff.
      exists new. split_and!; [|exact Hnew|intros _; eauto].
      destruct (expired _ _); injection Heff as _ ->; exact Hch.
    + injection Heff as _ ->.
      exists new. split_and!; [exact Hch|exact Hnew|intros _; eauto].
  - rewrite deadline_check_spec in Heff.
    destruct (expired _ _); injection Heff as _ ->; now apply Hsame.
Qed.




(** X9: when the lowered search term occurs in the lowered text of no page
    ([str.lower] being that of the environment), the file is left with its
    header alone. *)
Theorem no_match_leaves_the_header_alone (E : env) (fuel : nat) (url : string)
    (depth : Z) (search_string output_file : string) (run_time : Q) :
  header_error E output_file = None ->
  (forall u pg, requests_get E u = inr pg ->
                str_in (str_lower E search_string) (str_lower E (text pg)) = false) ->
  chunks (out_file (session E fuel url depth search_string output_file
                            run_time))
  = header_lines url depth search_string.
Proof.
  intros Hhdr Hnone.
  assert (Hloop : forall s0,
            chunks (out_file s0) = header_lines url depth search_string ->
            chunks (out_file (snd (while_urls_to_visit E fuel url depth
                                     search_string (time_time E 0) run_time s0)))
            = header_lines url depth search_string).
  { apply (while_preserves E
             (fun s => chunks (out_file s) = header_lines url depth search_string)).
    intros s c s' Hne Hch Hit.
    destruct (iteration_file E _ _ _ _ _ _ _ _ Hne Hit)
      as (new & Hch' & _ & Hwhy).
    destruct new as [|chunk new]; [now rewrite Hch', app_nil_r|].
    destruct Hwhy as (u & pg & Hget & Hmatch); [discriminate|].
    rewrite (Hnone u pg Hget) in Hmatch. discriminate. }
  destruct (session_after_header E fuel url depth search_string output_file
              run_time Hhdr) as [->|(e & _ & ->)]; cbn [out_file log];
    now apply Hloop.
Qed.

Lemma no_match_leaves_the_header_alone_witness :
  chunks (out_file (session (example_env bfs_web None no_error) 10
                            "http://s/" 2 "news" "out.txt" 100%Q))
  = header_lines "http://s/" 2 "news".
Proof.
  apply (no_match_leaves_the_header_alone
           (example_env bfs_web None no_error) 10 "http://s/" 2 "news"
           "out.txt" 100%Q).
  - reflexivity.
  - intros u pg Hget. cbn in Hget.
    repeat match type of Hget with
           | (if ?b then _ else _) = _ => destruct b
           end;
      try (injection Hget as <-; reflexivity); discriminate.
Defined.

(** *** The deadline *)

Lemma within_budget_app run_time tr ev :
  within_budget run_time tr -> silent ev -> within_budget run_time (tr ++ ev).
Proof.
  intros [Hchecks Hline] [Hnone Hquiet]. split.
  - now rewrite omap_app, Hnone, app_nil_r.
  - rewrite console_app. intros Hin. apply elem_of_app in Hin as [Hin|Hin]; auto.
Qed.

Lemma within_budget_check run_time tr t :
  within_budget run_time tr -> expired t run_time = false ->
  within_budget run_time (tr ++ [DeadlineCheck t]).
Proof.
  intros [Hchecks Hline] Ht. split.
  - rewrite omap_app. apply Forall_app. split; [exact Hchecks|].
    repeat constructor. exact Ht.
  - rewrite console_app. cbn. now rewrite app_nil_r.
Qed.

Lemma silent_dequeue u d : silent [Dequeue u d].
Proof. split; [reflexivity|]. cbn. apply not_elem_of_nil. Qed.

Lemma silent_fetch u d : silent [Fetch u d].
Proof. split; [reflexivity|]. cbn. apply not_elem_of_nil. Qed.

Lemma silent_enqueues (new : list (string * Z)) :
  silent (map (fun e => Enqueue (fst e) (snd e)) new).
Proof.
  split.
  - induction new as [|[u d] new IH]; [reflexivity|exact IH].
  - rewrite console_map_Enqueue. apply not_elem_of_nil.
Qed.

Lemma silent_print line : line <> timeout_line -> silent [Print line].
Proof.
  intros Hne. split; [reflexivity|]. cbn. intros Hin.
  apply list_elem_of_singleton in Hin. congruence.
Qed.

Lemma error_line_is_not_the_timeout_line u e :
  "Error processing URL " +:+ u +:+ ": " +:+ str_exn e <> timeout_line.
Proof. discriminate. Qed.

Lemma found_line_is_not_the_timeout_line t :
  "Found article: " +:+ t <> timeout_line.
Proof. discriminate. Qed.

Lemma outer_message_is_not_the_timeout_line output_file e :
  outer_message output_file e <> timeout_line.
Proof. unfold outer_message. destruct (is_IOError e); discriminate. Qed.

Lemma deadline_check_budget (E : env) start_time run_time s c s' :
  within_budget run_time (trace s) ->
  deadline_check E start_time run_time s = (Ok c, s') ->
  match c with
  | Continue => within_budget run_time (trace s')
  | Break => stopped_by_timeout run_time (trace s')
  end.
Proof.
  intros Hs. rewrite deadline_check_spec.
  destruct (expired _ run_time) eqn:Hexp; intros [= <- <-].
  - eexists _, _. split_and!; [|exact Hexp|exact Hs].
    cbn [trace log set_clock_reads]. now rewrite <- app_assoc.
  - cbn [trace log set_clock_reads]. now apply within_budget_check.
Qed.

(** An iteration that continues found the budget respected; one that breaks
    ends the trace with the failed check and the timeout line. *)
Lemma iteration_budget (E : env) url depth search_string start_time run_time
    s c s' :
  urls_to_visit s <> [] ->
  within_budget run_time (trace s) ->
  iteration E url depth search_string start_time run_time s = (Ok c, s') ->
  match c with
  | Continue => within_budget run_time (trace s')
  | Break => stopped_by_timeout run_time (trace s')
  end.
Proof.
  intros Hne Hs Hit.
  destruct (urls_to_visit s) as [|[u d] rest] eqn:Hq; [congruence|].
  assert (Hskip : u ∈ visited_urls s \/ depth < d ->
            match c with
            | Continue => within_budget run_time (trace s')
            | Break => stopped_by_timeout run_time (trace s')
            end).
  { intros Hcond.
    rewrite (iteration_skip E _ _ _ _ _ _ _ _ _ Hq Hcond) in Hit.
    injection Hit as <- <-. cbn [trace log set_frontier].
    apply within_budget_app; [exact Hs|apply silent_dequeue]. }
  destruct (decide (u ∈ visited_urls s)) as [Hin|Hnin];
    [apply Hskip; now left|].
  destruct (Z.lt_ge_cases depth d) as [Hd|Hd]; [apply Hskip; now right|].
  clear Hskip.
  pose proof (iteration_effects E url depth search_string start_time run_time
                s u d rest Hq Hnin Hd) as Heff.
  cbn zeta in Heff. rewrite Hit in Heff.
  assert (Hs0 : within_budget run_time
                  (trace (log (Fetch u d) (taken u d rest s)))).
  { cbn [trace log taken set_visited set_frontier].
    apply within_budget_app; [apply within_budget_app; [exact Hs|]|];
      auto using silent_dequeue, silent_fetch. }
  destruct (requests_get E u) as [e|pg] eqn:Hget.
  { injection Heff as -> ->. cbn [trace log].
    apply within_budget_app; [exact Hs0|].
    apply silent_print, error_line_is_not_the_timeout_line. }
  assert (Hs2 : within_budget run_time
                  (trace (add_entries (links_of E url (anchors pg) d)
                            (log (Fetch u d) (taken u d rest s))))).
  { cbn [trace add_entries].
    apply within_budget_app; [exact Hs0|apply silent_enqueues]. }
  destruct (links_error E url (anchors pg) d) as [e|].
  { injection Heff as -> ->. cbn [trace log].
    apply within_budget_app; [exact Hs2|].
    apply silent_print, error_line_is_not_the_timeout_line. }
  destruct (str_in (str_lower E search_string) (str_lower E (text pg))).
  - destruct (write_with_line_breaks E (text pg) 80 (out_file s))
      as [[[]|e|] f]; [| |contradiction].
    + symmetry in Heff. apply (deadline_check_budget E _ _ _ _ _) in Heff;
        [exact Heff|].
      cbn [trace log set_file]. apply within_budget_app; [exact Hs2|].
      apply silent_print, found_line_is_not_the_timeout_line.
    + injection Heff as -> ->. cbn [trace log set_file].
      apply within_budget_app; [apply within_budget_app; [exact Hs2|]|].
      * apply silent_print, found_line_is_not_the_timeout_line.
      * apply silent_print, error_line_is_not_the_timeout_line.
  - symmetry in Heff. now apply (deadline_check_budget E _ _ _ _ _) in Heff.
Qed.

(** X10: in every session the timeout stops the loop: either no deadline
    check found the budget exceeded and the timeout line was never printed,
    or the loop ended with the first check that found it exceeded followed
    by the timeout line, so that nothing is dequeued, fetched or written
    after it and the line is printed once.  After the timeout line the
    [with] block closes the file, and the only thing that can follow it is
    the line of the handler of line 136 when that closing raises. *)
Theorem timeout_ends_the_session (E : env) (fuel : nat) (url : string)
    (depth : Z) (search_string output_file : string) (run_time : Q) :
  let tr := trace (session E fuel url depth search_string output_file run_time) in
  within_budget run_time tr \/
  exists loop_trace after,
    tr = loop_trace ++ after /\
    stopped_by_timeout run_time loop_trace /\
    (after = [] \/
     exists e, close_error E = Some e /\
               after = [Print (outer_message output_file e)]).
Proof.
  intros tr. subst tr.
  destruct (header_error E output_file) as [e|] eqn:Hhdr.
  - destruct (session_header_failed E fuel url depth search_string output_file
                run_time e Hhdr) as (f & ->).
    left. cbn [trace log set_file start_state set_frontier set_visited
               set_clock_reads initial_state].
    apply (within_budget_app _ []).
    + split; [constructor|apply not_elem_of_nil].
    + apply silent_print, outer_message_is_not_the_timeout_line.
  - assert (Hloop :
      let s' := snd (while_urls_to_visit E fuel url depth search_string
                       (time_time E 0) run_time
                       (set_file {| chunks := header_lines url depth search_string;
                                    write_calls := 3 |} (start_state url))) in
      within_budget run_time (trace s') \/ stopped_by_timeout run_time (trace s')).
    { apply (while_rule E (fun s => within_budget run_time (trace s))
               (fun s => stopped_by_timeout run_time (trace s))).
      + intros s c s'. apply iteration_budget.
      + split; [constructor|apply not_elem_of_nil]. }
    cbn zeta in Hloop.
    destruct (session_after_header E fuel url depth search_string output_file
                run_time Hhdr) as [->|(e & Hclose & ->)].
    + destruct Hloop as [Hin|Hout]; [now left|right].
      eexists _, []. rewrite app_nil_r. split_and!; [reflexivity|exact Hout|].
      now left.
    + cbn [trace log]. destruct Hloop as [Hin|Hout]; [left|right].
      * apply within_budget_app; [exact Hin|].
        apply silent_print, outer_message_is_not_the_timeout_line.
      * eexists _, _. split_and!; [reflexivity|exact Hout|].
        right. now exists e.
Qed.

(** *** Fuel *)

(** With enough fuel for the cost of the queue, more fuel changes nothing. *)
Lemma while_fuel_irrelevant (E : env) url depth search_string start_time
    run_time fuel1 :
  forall fuel2 s,
    (queue_cost E url depth (urls_to_visit s) <= fuel1)%nat ->
    (queue_cost E url depth (urls_to_visit s) <= fuel2)%nat ->
    while_urls_to_visit E fuel1 url depth search_string start_time run_time s
    = while_urls_to_visit E fuel2 url depth search_string start_time run_time s.
Proof.
  induction fuel1 as [|fuel1 IH]; intros fuel2 s H1 H2.
  - destruct (urls_to_visit s) as [|e rest] eqn:Hq.
    + now rewrite !while_empty.
    + rewrite queue_cost_cons in H1. pose proof (entry_cost_pos E url depth e).
      lia.
  - destruct (urls_to_visit s) as [|[u d] rest] eqn:Hq.
    + now rewrite !while_empty.
    + destruct fuel2 as [|fuel2].
      { rewrite queue_cost_cons in H2.
        pose proof (entry_cost_pos E url depth (u, d)). lia. }
      cbn [while_urls_to_visit]. rewrite Hq.
      destruct (iteration_cases E url depth search_string start_time run_time
                  s u d rest Hq) as (c & s' & Hit & _).
      unfold bind. rewrite Hit.
      assert (Hne : urls_to_visit s <> []) by congruence.
      pose proof (iteration_decreases E url depth _ _ _ _ _ _ Hne Hit) as Hdec.
      rewrite Hq in Hdec.
      destruct c; [apply IH; lia|reflexivity].
Qed.

(** X11: every session ends: the depth limit bounds the number of
    iterations by [enough_fuel], whatever the web is (cycles, pages linking
    to themselves, fetches that fail).  With that many iterations allowed
    the session ends normally, and allowing more does not change its final
    state. *)
Theorem every_session_ends (E : env) (fuel : nat) (url : string) (depth : Z)
    (search_string output_file : string) (run_time : Q) :
  (enough_fuel E url depth <= fuel)%nat ->
  session_outcome E fuel url depth search_string output_file run_time = Ok tt /\
  session E fuel url depth search_string output_file run_time
  = session E (enough_fuel E url depth) url depth search_string output_file
            run_time.
Proof.
  intros Hfuel. split; [now apply session_terminates|].
  unfold session. rewrite !scrape_articles_unfold.
  unfold try_except, with_open.
  destruct (open_w E output_file); [reflexivity|].
  unfold bind, modify.
  destruct (header_write_error E) as [e|] eqn:Hw.
  - destruct (write_header_fails E url depth search_string (start_state url) e Hw)
      as (k & f & _ & _ & ->).
    reflexivity.
  - rewrite (write_header_ok E url depth search_string (start_state url) Hw).
    rewrite (while_fuel_irrelevant E url depth search_string (time_time E 0)
               run_time fuel (enough_fuel E url depth));
      [reflexivity|exact Hfuel|apply Nat.le_refl].
Qed.

Lemma every_session_ends_witness :
  let E := example_env bfs_web None no_error in
  session_outcome E 10 "http://s/" 2 "news" "out.txt" 100%Q = Ok tt /\
  session E 10 "http://s/" 2 "news" "out.txt" 100%Q
  = session E (enough_fuel E "http://s/" 2) "http://s/" 2 "news" "out.txt"
            100%Q.
Proof.
  intros E.
  apply (every_session_ends E 10 "http://s/" 2 "news" "out.txt" 100%Q).
  vm_compute. lia.
Defined.

(** *** The entry point *)

(** X12: the process exits with status 1 exactly when the number of
    arguments is not five or DEPTH or RUN_TIME does not convert: the handler
    of lines 156-158 is never reached, because no exception leaves
    [scrape_articles].  In those cases nothing has been fetched and nothing
    written. *)
Theorem exit_status_one_means_bad_arguments (E : env) (fuel : nat)
    (argv : list string) :
  let run := main E fuel argv initial_state in
  (exit_status (fst run) = Some 1 <->
   length argv <> 6%nat \/
   exists depth_s run_time_s,
     argv !! 2%nat = Some depth_s /\ argv !! 5%nat = Some run_time_s /\
     (py_int E depth_s = None \/ py_float E run_time_s = None))
  /\
  (exit_status (fst run) = Some 1 ->
   fetched (trace (snd run)) = [] /\ chunks (out_file (snd run)) = []).
Proof.
  intros run. subst run.
  destruct argv as [|prog [|url [|depth_s [|search_string [|output_file
                    [|run_time_s [|extra argv]]]]]]];
    try (split; [split; [intros _; left; cbn; lia|reflexivity]
                |intros _; split; reflexivity]).
  cbn [length lookup list_lookup]. unfold main.
  destruct (py_int E depth_s) as [depth|] eqn:Hint.
  2:{ split; [split; [intros _; right; eauto 10|reflexivity]
             |intros _; split; reflexivity]. }
  destruct (py_float E run_time_s) as [run_time|] eqn:Hfloat.
  2:{ split; [split; [intros _; right; eauto 10|reflexivity]
             |intros _; split; reflexivity]. }
  assert (Hnot : exit_status
            (fst (try_except
                    (scrape_articles E fuel url depth search_string output_file
                                     run_time ;; ret 0)
                    (fun e =>
                       print ("An error occurred while running the scraper: "
                              +:+ str_exn e) ;;
                       ret 1)
                    initial_state))
            <> Some 1).
  { unfold try_except, bind.
    pose proof (scrape_articles_never_raises E fuel url depth search_string
                  output_file run_time initial_state) as Hnr.
    destruct (scrape_articles E fuel url depth search_string output_file
                run_time initial_state) as [[[]|e|] s']; cbn in *;
      [discriminate|now destruct (Hnr e)|discriminate]. }
  split; [split|]; [intros H; now destruct (Hnot H)| |intros H; now destruct (Hnot H)].
  intros [Hlen|(d' & r' & Hd & Hr & Hbad)]; [lia|].
  cbn in Hd, Hr. injection Hd as <-. injection Hr as <-.
  destruct Hbad; congruence.
Qed.

Lemma exit_status_one_means_bad_arguments_witness :
  let E := example_env bfs_web None no_error in
  let run := main E 10 ["scraper.py"; "http://s/"; "two"; "news"; "out.txt";
                        "100"] initial_state in
  exit_status (fst run) = Some 1 /\
  fetched (trace (snd run)) = [] /\ chunks (out_file (snd run)) = [].
Proof.
  intros E run.
  assert (Hone : exit_status (fst run) = Some 1).
  { apply (proj1 (exit_status_one_means_bad_arguments E 10
                    ["scraper.py"; "http://s/"; "two"; "news"; "out.txt"; "100"])).
    right. exists "two", "100". split_and!; [reflexivity|reflexivity|].
    left. reflexivity. }
  split; [exact Hone|].
  apply (proj2 (exit_status_one_means_bad_arguments E 10
                  ["scraper.py"; "http://s/"; "two"; "news"; "out.txt"; "100"])).
  exact Hone.
Defined.

(** *** The report of a match *)

Lemma console_after_links (E : env) url pg u d rest s :
  console (trace (add_entries (links_of E url (anchors pg) d)
                    (log (Fetch u d) (taken u d rest s))))
  = console (trace s).
Proof.
  cbn [trace add_entries log taken set_visited set_frontier].
  rewrite !console_app, console_map_Enqueue. cbn. now rewrite !app_nil_r.
Qed.

(** X13: a taken entry whose fetch returns a page.  When [urljoin] raises
    for one of its hrefs, the page is not examined: the file is left as it
    is, the only line printed is the error line of that URL, no deadline
    check is made and the loop continues.  Otherwise, a page whose lowered
    text contains the lowered search term is announced by exactly one line
    with its title, or with [No title found] when it has none, and its text
    goes through the wrapper at width 80 into the file; the iteration never
    raises: when a write does, the error line of the URL follows the
    announcement and the loop continues, and when none does nothing follows
    the announcement but the timeout line of an iteration that breaks.  A
    page that does not match leaves the file as it is and prints nothing but
    that timeout line. *)
Theorem a_matching_page_is_announced_and_wrapped (E : env) (url : string)
    (depth : Z) (search_string : string) (start_time run_time : Q)
    (s : state) (u : string) (d : Z) (rest : list (string * Z)) (pg : soup) :
  urls_to_visit s = (u, d) :: rest ->
  u ∉ visited_urls s -> d <= depth ->
  requests_get E u = inr pg ->
  let failed e := "Error processing URL " +:+ u +:+ ": " +:+ str_exn e in
  let found := "Found article: " +:+ match title pg with
                                     | Some t => t
                                     | None => "No title found"
                                     end in
  exists c s',
    iteration E url depth search_string start_time run_time s = (Ok c, s') /\
    match links_error E url (anchors pg) d with
    | Some e =>
        c = Continue /\
        out_file s' = out_file s /\
        console (trace s') = console (trace s) ++ [failed e] /\
        deadline_checks (trace s') = deadline_checks (trace s)
    | None =>
        if str_in (str_lower E search_string) (str_lower E (text pg)) then
          out_file s' = snd (write_with_line_breaks E (text pg) 80 (out_file s)) /\
          match fst (write_with_line_breaks E (text pg) 80 (out_file s)) with
          | Raise e =>
              c = Continue /\
              console (trace s') = console (trace s) ++ [found; failed e]
          | _ =>
              (c = Continue /\
               console (trace s') = console (trace s) ++ [found]) \/
              (c = Break /\
               console (trace s') = console (trace s) ++ [found; timeout_line])
          end
        else
          out_file s' = out_file s /\
          ((c = Continue /\ console (trace s') = console (trace s)) \/
           (c = Break /\
            console (trace s') = console (trace s) ++ [timeout_line]))
    end.
Proof.
  intros Hq Hnin Hd Hget failed found.
  pose proof (iteration_effects E url depth search_string start_time run_time
                s u d rest Hq Hnin Hd) as Heff.
  cbn zeta in Heff. rewrite Hget in Heff.
  pose proof (console_after_links E url pg u d rest s) as Hcon.
  destruct (links_error E url (anchors pg) d) as [e|].
  { eexists _, _. split; [exact Heff|].
    cbn [trace log out_file add_entries taken set_visited set_frontier].
    split_and!; [reflexivity|reflexivity| |].
    - rewrite !console_app, console_map_Enqueue. cbn. now rewrite !app_nil_r.
    - rewrite !deadline_checks_app, deadline_checks_map_Enqueue. cbn. lia. }
  destruct (str_in (str_lower E search_string) (str_lower E (text pg))).
  - destruct (write_with_line_breaks E (text pg) 80 (out_file s))
      as [[[]|e|] f]; [| |contradiction]; cbn [fst snd].
    + rewrite deadline_check_spec in Heff.
      destruct (expired _ _); eexists _, _; (split; [exact Heff|]);
        (split; [reflexivity|]); [right|left]; (split; [reflexivity|]);
        cbn [trace log set_file set_clock_reads];
        rewrite !console_app, Hcon; cbn; rewrite ?app_nil_r, <- ?app_assoc;
        reflexivity.
    + eexists _, _. split; [exact Heff|]. split; [reflexivity|].
      split; [reflexivity|].
      cbn [trace log set_file]. rewrite !console_app, Hcon. cbn.
      rewrite <- ?app_assoc. reflexivity.
  - rewrite deadline_check_spec in Heff.
    destruct (expired _ _); eexists _, _; (split; [exact Heff|]);
      (split; [reflexivity|]); [right|left]; (split; [reflexivity|]);
      cbn [trace log set_clock_reads];
      rewrite !console_app, Hcon; cbn; rewrite ?app_nil_r; reflexivity.
Qed.

Lemma a_matching_page_is_announced_and_wrapped_witness :
  let E := example_env news_web None no_error in
  let s := start_state "http://s/" in
  exists c s',
    iteration E "http://s/" 2 "news" 0%Q 100%Q s = (Ok c, s') /\
    out_file s' = snd (write_with_line_breaks E "Latest NEWS" 80 (out_file s)) /\
    ((c = Continue /\
      console (trace s') = console (trace s) ++ ["Found article: Seed"]) \/
     (c = Break /\
      console (trace s')
      = console (trace s) ++ ["Found article: Seed"; timeout_line])).
Proof.
  intros E s.
  apply (a_matching_page_is_announced_and_wrapped E "http://s/" 2 "news" 0%Q
           100%Q s "http://s/" 0 [] (page (Some "Seed") "Latest NEWS"
                                          ["http://s/a"])).
  - reflexivity.
  - apply not_elem_of_empty.
  - lia.
  - reflexivity.
Defined.

(** *** The start of a session *)



(** The entries fetched so far begin with the seed. *)
Lemma seed_first_while (E : env) fuel url depth search_string start_time
    run_time s :
  (exists rest, fetched_entries (trace s) = (url, 0) :: rest) ->
  exists rest,
    fetched_entries
      (trace (snd (while_urls_to_visit E fuel url depth search_string
                     start_time run_time s)))
    = (url, 0) :: rest.
Proof.
  apply (while_preserves E
           (fun s => exists rest, fetched_entries (trace s) = (url, 0) :: rest)).
  clear s. intros s c s' Hne (first & Hf) Hit.
  destruct (urls_to_visit s) as [|[u d] rest] eqn:Hq; [congruence|].
  destruct (iteration_cases E url depth search_string start_time run_time
              s u d rest Hq) as (c0 & s0 & Hit0 & Hcases).
  rewrite Hit in Hit0. injection Hit0 as <- <-.
  destruct Hcases as [(_ & _ & ->)
                     |(_ & _ & _ & new & tail & _ & _ & _ & Htr & Hquiet)].
  - cbn [trace log set_frontier]. rewrite fetched_entries_app, Hf. cbn.
    rewrite app_nil_r. eauto.
  - rewrite Htr, (taken_fetched_entries _ _ _ _ _ Hquiet), Hf. cbn. eauto.
Qed.

(** X15: when the header is written and [depth] is not negative, the start
    URL is the first page fetched, at depth 0; with [depth] 0 it is the only
    one. *)
Theorem start_page_is_fetched_first (E : env) (fuel : nat) (url : string)
    (depth : Z) (search_string output_file : string) (run_time : Q) :
  header_error E output_file = None -> 0 <= depth ->
  let s := session E (S fuel) url depth search_string output_file run_time in
  (exists rest, fetched_entries (trace s) = (url, 0) :: rest) /\
  (depth = 0 -> fetched_entries (trace s) = [(url, 0)]).
Proof.
  intros Hhdr Hdepth s.
  assert (Hfirst : exists rest, fetched_entries (trace s) = (url, 0) :: rest).
  { assert (Hloop : exists rest,
              fetched_entries
                (trace (snd (while_urls_to_visit E (S fuel) url depth
                               search_string (time_time E 0) run_time
                               (set_file {| chunks := header_lines url depth
                                                        search_string;
                                            write_calls := 3 |}
                                         (start_state url)))))
              = (url, 0) :: rest).
    { set (s0 := set_file _ (start_state url)).
      assert (Hq : urls_to_visit s0 = [(url, 0)]) by reflexivity.
      cbn [while_urls_to_visit]. rewrite Hq.
      destruct (iteration_cases E url depth search_string (time_time E 0)
                  run_time s0 url 0 [] Hq) as (c & s' & Hit & Hcases).
      unfold bind. rewrite Hit.
      assert (Hs' : exists rest, fetched_entries (trace s') = (url, 0) :: rest).
      { destruct Hcases as [([Hin|Hlt] & _)
                           |(_ & _ & _ & new & tail & _ & _ & _ & Htr & Hquiet)].
        - now apply not_elem_of_empty in Hin.
        - lia.
        - rewrite Htr, (taken_fetched_entries _ _ _ _ _ Hquiet). cbn. eauto. }
      destruct c; [now apply seed_first_while|exact Hs']. }
    subst s.
    destruct (session_after_header E (S fuel) url depth search_string
                output_file run_time Hhdr) as [->|(e & _ & ->)];
      [exact Hloop|].
    destruct Hloop as (first & Hfirst). exists first.
    cbn [trace log]. rewrite fetched_entries_app, Hfirst. cbn.
    now rewrite app_nil_r. }
  split; [exact Hfirst|].
  intros ->. destruct Hfirst as (rest & Hrest).
  destruct (queue_inv_session E (S fuel) url 0 search_string output_file run_time)
    as (Hfifo & Hsub & _).
  destruct (fetch_inv_session E (S fuel) url 0 search_string output_file run_time)
    as (_ & _ & Hdep).
  destruct (depth_inv_session E (S fuel) url 0 search_string output_file run_time)
    as [_ Hen].
  fold s in Hfifo, Hsub, Hdep, Hen.
  assert (Hone : fetched_entries (trace s) `sublist_of` [(url, 0)]).
  { apply (sublist_of_cons_excluded _ _ (enqueued (trace s))).
    - rewrite Hfifo. etransitivity; [exact Hsub|]. now apply sublist_inserts_r.
    - intros x Hx Hx'. rewrite Forall_forall in Hdep, Hen.
      specialize (Hdep x Hx). specialize (Hen x Hx'). cbn in Hdep. lia. }
  rewrite Hrest in Hone |- *.
  apply sublist_length in Hone. cbn in Hone.
  destruct rest; [reflexivity|cbn in Hone; lia].
Qed.

Lemma start_page_is_fetched_first_witness :
  let E := example_env bfs_web None no_error in
  let s := session E 1 "http://s/" 0 "news" "out.txt" 100%Q in
  (exists rest, fetched_entries (trace s) = ("http://s/", 0) :: rest) /\
  (0 = 0 -> fetched_entries (trace s) = [("http://s/", 0)]).
Proof.
  intros E.
  apply (start_page_is_fetched_first E 0 "http://s/" 0 "news" "out.txt" 100%Q).
  - reflexivity.
  - lia.
Defined.

(** *** The deadline check on the success path *)

(** X16: for a dequeued entry that is not skipped and whose processing
    (fetch, parse, enqueueing of the links, report and write of a match)
    raises no exception, the deadline is checked exactly once, after the
    processing and before the next entry is taken; when the elapsed time
    exceeds [run_time] the line [Scrape has timed out] is printed and the
    loop ends normally, whatever is left in the queue. *)
Theorem deadline_is_checked_once_after_processing (E : env) (url : string)
    (depth : Z) (search_string : string) (start_time run_time : Q)
    (s s1 : state) (u : string) (d : Z) (rest : list (string * Z)) :
  urls_to_visit s = (u, d) :: rest ->
  u ∉ visited_urls s -> d <= depth ->
  process_page E url search_string u d (taken u d rest s) = (Ok tt, s1) ->
  let elapsed_time := (time_time E (clock_reads s1) - start_time)%Q in
  let timeout := expired elapsed_time run_time in
  exists s',
    iteration E url depth search_string start_time run_time s
    = (Ok (if timeout then Break else Continue), s') /\
    trace s' = trace s1 ++ DeadlineCheck elapsed_time
                 :: (if timeout then [Print "Scrape has timed out"] else []) /\
    deadline_checks (trace s') = S (deadline_checks (trace s)) /\
    (timeout = true ->
     forall fuel,
       while_urls_to_visit E (S fuel) url depth search_string start_time
                           run_time s
       = (Ok tt, s')).
Proof.
  intros Hq Hnin Hd Hpage elapsed_time timeout.
  assert (Hchecks : deadline_checks (trace s1) = deadline_checks (trace s)).
  { rewrite (process_page_checks E _ _ _ _ _ _ _ Hpage). simpl_state.
    rewrite deadline_checks_app. cbn. lia. }
  assert (Hit : iteration E url depth search_string start_time run_time s
                = deadline_check E start_time run_time s1).
  { rewrite (iteration_taken E _ _ _ _ _ _ _ _ _ Hq Hnin Hd).
    unfold try_except, bind at 1. rewrite Hpage.
    rewrite deadline_check_spec. now destruct (expired _ _). }
  rewrite deadline_check_spec in Hit.
  fold elapsed_time in Hit. fold timeout in Hit.
  destruct timeout eqn:Htimeout; eexists; (split; [exact Hit|]); simpl_state;
    split_and!.
  - flatten_apps.
  - rewrite !deadline_checks_app, Hchecks. cbn. lia.
  - intros _ fuel. cbn [while_urls_to_visit]. rewrite Hq. unfold bind.
    rewrite Hit. reflexivity.
  - reflexivity.
  - rewrite !deadline_checks_app, Hchecks. cbn. lia.
  - discriminate.
Qed.

Lemma deadline_is_checked_once_after_processing_witness :
  let E := example_env bfs_web None no_error in
  let s := start_state "http://s/" in
  let s1 := snd (process_page E "http://s/" "news" "http://s/" 0
                   (taken "http://s/" 0 [] s)) in
  let elapsed_time := (time_time E (clock_reads s1) - 0)%Q in
  let timeout := expired elapsed_time 0%Q in
  exists s',
    iteration E "http://s/" 2 "news" 0%Q 0%Q s
    = (Ok (if timeout then Break else Continue), s') /\
    trace s' = trace s1 ++ DeadlineCheck elapsed_time
                 :: (if timeout then [Print "Scrape has timed out"] else []) /\
    deadline_checks (trace s') = S (deadline_checks (trace s)) /\
    (timeout = true ->
     forall fuel,
       while_urls_to_visit E (S fuel) "http://s/" 2 "news" 0%Q 0%Q s
       = (Ok tt, s')).
Proof.
  intros E s s1.
  apply (deadline_is_checked_once_after_processing E "http://s/" 2 "news"
           0%Q 0%Q s s1 "http://s/" 0 []).
  - reflexivity.
  - apply not_elem_of_empty.
  - lia.
  - reflexivity.
Defined.
